(** * A Deep Q-Learning agent (notebooks/dqn_agent.py)

    Shallow embedding of the replay buffer, the epsilon-greedy policy, the
    learning trigger, the Bellman target and the soft target update of
    [dqn_agent.py].

    Conventions of the embedding.
    - A tensor entry (a torch float) is a value of [fval]: a rational, one
      of the two infinities, or NaN, with the IEEE rules for the
      non-finite values. Arithmetic on finite values is exact: rounding and
      overflow are outside the embedding.
    - A parameter tensor is the list of its entries; broadcasting between
      tensors of several dimensions is outside the embedding.
    - A Python exception is the [Raise] outcome of a computation; the state
      reached when it is raised is kept, as in Python.
    - Objects that are mutated in place (the deque, the agent's counter, the
      training flag of a network, the parameters, the generator of the
      [random] module) are fields of an explicit state that every method
      threads. *)

From Stdlib Require Import QArith Qcanon ZArith Lia.
From stdpp Require Import base list.

(** ** Tensor entries *)

Inductive fval : Type :=
  | Fin (q : Qc)
  | PInf
  | NInf
  | NaN.

#[global] Instance fval_eq_dec : EqDecision fval.
Proof. solve_decision. Defined.

Definition is_finite (x : fval) : Prop :=
  match x with Fin _ => True | _ => False end.

Definition fopp (x : fval) : fval :=
  match x with
  | Fin q => Fin (- q)%Qc
  | PInf => NInf
  | NInf => PInf
  | NaN => NaN
  end.

Definition fadd (x y : fval) : fval :=
  match x, y with
  | NaN, _ => NaN
  | _, NaN => NaN
  | Fin a, Fin b => Fin (a + b)%Qc
  | PInf, NInf => NaN
  | NInf, PInf => NaN
  | PInf, _ => PInf
  | _, PInf => PInf
  | NInf, _ => NInf
  | _, NInf => NInf
  end.

Definition fsub (x y : fval) : fval := fadd x (fopp y).

(** An infinity ([PInf] when [pos]) times the finite value [q]: NaN for
    [q = 0], else the infinity of the product's sign. *)
Definition inf_times (pos : bool) (q : Qc) : fval :=
  if decide (q = 0%Qc) then NaN
  else if decide (0 < q)%Qc then (if pos then PInf else NInf)
  else (if pos then NInf else PInf).

Definition fmul (x y : fval) : fval :=
  match x, y with
  | NaN, _ => NaN
  | _, NaN => NaN
  | Fin a, Fin b => Fin (a * b)%Qc
  | PInf, Fin b => inf_times true b
  | Fin a, PInf => inf_times true a
  | NInf, Fin b => inf_times false b
  | Fin a, NInf => inf_times false a
  | PInf, PInf => PInf
  | NInf, NInf => PInf
  | PInf, NInf => NInf
  | NInf, PInf => NInf
  end.

(** [x < y] and [x <= y]; both are false when an operand is NaN. *)
Definition flt (x y : fval) : Prop :=
  match x, y with
  | NaN, _ => False
  | _, NaN => False
  | Fin a, Fin b => (a < b)%Qc
  | NInf, NInf => False
  | NInf, _ => True
  | _, NInf => False
  | PInf, _ => False
  | Fin _, PInf => True
  end.

Definition fle (x y : fval) : Prop :=
  match x, y with
  | NaN, _ => False
  | _, NaN => False
  | Fin a, Fin b => (a <= b)%Qc
  | NInf, _ => True
  | _, PInf => True
  | PInf, _ => False
  | Fin _, NInf => False
  end.

#[global] Instance flt_dec (x y : fval) : Decision (flt x y).
Proof. destruct x, y; simpl; apply _. Defined.

#[global] Instance fle_dec (x y : fval) : Decision (fle x y).
Proof. destruct x, y; simpl; apply _. Defined.

Declare Scope fval_scope.
Delimit Scope fval_scope with F.
Bind Scope fval_scope with fval.
Notation "0" := (Fin 0%Qc) : fval_scope.
Notation "1" := (Fin 1%Qc) : fval_scope.
Infix "+" := fadd : fval_scope.
Infix "-" := fsub : fval_scope.
Infix "*" := fmul : fval_scope.
Infix "<" := flt : fval_scope.
Infix "<=" := fle : fval_scope.

(** The value of a count, a quotient by a count ([0 / 0] is NaN), and a
    sum. *)
Definition of_nat (n : nat) : Qc := Q2Qc (inject_Z (Z.of_nat n)).

Definition fdiv_count (x : fval) (n : nat) : fval :=
  match n with
  | O => NaN
  | S _ =>
      match x with
      | Fin q => Fin (q / of_nat n)%Qc
      | _ => x
      end
  end.

Definition fsum (xs : list fval) : fval := foldr fadd 0%F xs.

(** ** Hyper-parameters (dqn_agent.py, lines 11-16) *)

Definition BUFFER_SIZE : nat := Z.to_nat 100000.
Definition BATCH_SIZE : nat := 64.
Definition GAMMA : fval := Fin (Q2Qc (99 # 100)).
Definition TAU : fval := Fin (Q2Qc (1 # 1000)).
Definition LR : fval := Fin (Q2Qc (5 # 10000)).
Definition UPDATE_EVERY : nat := 4.

(** ** Exceptions and outcomes *)

Inductive exn : Type :=
  | ValueError      (* random.sample with k > n, np.vstack of no or ragged rows,
                       np.argmax of an empty sequence *)
  | IndexError      (* random.choice of an empty sequence, max of an empty row *)
  | TypeError       (* torch.from_numpy of a column that is not of a numeric
                       machine type *)
  | RuntimeError.   (* a shape mismatch inside an estimator or a tensor
                       operation, gather out of range *)

Inductive outcome (A : Type) : Type :=
  | Return (a : A)
  | Raise (e : exn).
Arguments Return {A} a.
Arguments Raise {A} e.

Definition raises {A} (o : outcome A) : Prop :=
  match o with Raise _ => True | Return _ => False end.

(** ** Experience records and the replay buffer *)

(** A transition as the driving loop passes it: the states are arrays of
    floats, the action is a Python integer, the reward a float and [done] a
    bool. *)
Record Experience : Type := mkExperience {
  state : list fval;
  action : Z;
  reward : fval;
  next_state : list fval;
  done : bool
}.

(** [collections.deque(maxlen=n)]: the elements, oldest first, and the bound. *)
Record deque (A : Type) : Type := mkDeque {
  items : list A;
  maxlen : nat
}.
Arguments mkDeque {A} items maxlen.
Arguments items {A} d.
Arguments maxlen {A} d.

(** [deque.append]: the element is appended on the right, and when the length
    then exceeds [maxlen] one element is dropped from the left. *)
Definition deque_append {A} (d : deque A) (x : A) : deque A :=
  let l := items d ++ [x] in
  mkDeque (if decide (maxlen d < length l) then tail l else l) (maxlen d).

Record ReplayBuffer : Type := mkReplayBuffer {
  rb_action_size : nat;
  memory : deque Experience;
  batch_size : nat
}.

(** [ReplayBuffer.__init__] (lines 181-185). *)
Definition ReplayBuffer_init (action_size buffer_size batch_size : nat) : ReplayBuffer :=
  mkReplayBuffer action_size (mkDeque [] buffer_size) batch_size.

(** [ReplayBuffer.add] (lines 203-204). *)
Definition add (rb : ReplayBuffer) (s : list fval) (a : Z) (r : fval)
    (s' : list fval) (d : bool) : ReplayBuffer :=
  let e := mkExperience s a r s' d in
  mkReplayBuffer (rb_action_size rb) (deque_append (memory rb) e) (batch_size rb).

(** [ReplayBuffer.__len__] (lines 244-245). *)
Definition len (rb : ReplayBuffer) : nat := length (items (memory rb)).

Definition add_record (rb : ReplayBuffer) (e : Experience) : ReplayBuffer :=
  add rb (state e) (action e) (reward e) (next_state e) (done e).

(** Inserting a sequence of records, first to last. *)
Definition add_all (rb : ReplayBuffer) (es : list Experience) : ReplayBuffer :=
  foldl add_record rb es.

(** The last [n] elements of a list. *)
Definition most_recent {A} (n : nat) (l : list A) : list A :=
  drop (length l - n) l.

(** ** The [random] module

    The generator is the module-level state of Python's [random]; its two
    primitives are taken with their documented ranges. *)

Class Random : Type := {
  rng : Type;
  (** [random.seed(seed)] *)
  random_seed : Z -> rng;
  (** [random.random()]: the next float in the half-open range [0.0, 1.0) *)
  random_random : rng -> Qc * rng;
  random_random_range : forall g, (0 <= (random_random g).1)%Qc /\ ((random_random g).1 < 1)%Qc;
  (** [random._randbelow(n)] for [n > 0]: an integer in [0, n) *)
  randbelow : nat -> rng -> nat * rng;
  randbelow_range : forall n g, 0 < n -> (randbelow n g).1 < n
}.

(** [random.choice(seq)]: [seq[_randbelow(len(seq))]], IndexError on an empty
    sequence. *)
Definition random_choice `{Random} {A} (seq : list A) (g : rng) : outcome A * rng :=
  match seq with
  | [] => (Raise IndexError, g)
  | _ :: _ =>
      let '(j, g') := randbelow (length seq) g in
      match seq !! j with
      | Some x => (Return x, g')
      | None => (Raise IndexError, g')
      end
  end.

(** The selection loop of [random.sample]: [k] times, draw a position [j] of
    the live pool, take [pool[j]], and move the last live element into
    position [j]. (CPython runs this loop for small populations and, for
    large ones, redraws positions until they are new; either way the result
    holds the elements at [k] distinct positions.) *)
Fixpoint sample_pool `{Random} {A} (k : nat) (pool : list A) (g : rng) : list A * rng :=
  match k with
  | 0 => ([], g)
  | S k' =>
      let n := length pool in
      let '(j, g1) := randbelow n g in
      match pool !! j, last pool with
      | Some x, Some y =>
          let '(rest, g2) := sample_pool k' (take (n - 1) (<[j := y]> pool)) g1 in
          (x :: rest, g2)
      | _, _ => ([], g1)
      end
  end.

(** [random.sample(population, k)]: ValueError when [k] exceeds the
    population, else [k] elements at distinct positions. *)
Definition random_sample `{Random} {A} (population : list A) (k : nat) (g : rng)
    : outcome (list A) * rng :=
  if decide (k <= length population)
  then let '(r, g') := sample_pool k population g in (Return r, g')
  else (Raise ValueError, g).

(** ** numpy and torch operations on batches

    A matrix is the list of its rows; a B x 1 column is the list of its B
    entries. *)

Abbreviation tensor := (list fval) (only parsing).
Abbreviation params := (list (list fval)) (only parsing).

(** [np.vstack] of 1-D rows: ValueError on no rows or rows of unequal length. *)
Definition vstack (rows : list (list fval)) : outcome (list (list fval)) :=
  match rows with
  | [] => Raise ValueError
  | r :: rs =>
      if decide (Forall (fun r' => length r' = length r) rs)
      then Return rows else Raise ValueError
  end.

(** [np.vstack] of scalars (a B x 1 column): ValueError on no scalar. *)
Definition vstack_scalars {A} (xs : list A) : outcome (list A) :=
  match xs with
  | [] => Raise ValueError
  | _ :: _ => Return xs
  end.

(** A Python integer that numpy stores as an [int64]. *)
Definition fits_int64 (a : Z) : Prop :=
  (- 2 ^ 63 <= a < 2 ^ 63)%Z.

(** [torch.from_numpy(column).long()] of a column of Python integers: a
    column of [int64] values converts as it is. With an entry outside
    [int64] numpy builds an unsigned, an object or a float column, and the
    code raises TypeError or converts through floats; the embedding raises
    for every such column, and no property below is about one. *)
Definition to_long (xs : list Z) : outcome (list Z) :=
  if decide (Forall fits_int64 xs) then Return xs else Raise TypeError.

(** The scan of [np.argmax] from index [i], with the best entry [b] at index
    [bi] so far: an entry that is not [<= b] becomes the best one, and the
    scan stops at a NaN. *)
Fixpoint argmax_from (xs : list fval) (i : nat) (bi : nat) (b : fval) : nat :=
  match xs with
  | [] => bi
  | x :: xs' =>
      if decide (b = NaN) then bi
      else if decide (fle x b) then argmax_from xs' (S i) bi b
      else argmax_from xs' (S i) i x
  end.

(** [np.argmax]: ValueError on an empty array. *)
Definition argmax (xs : list fval) : outcome nat :=
  match xs with
  | [] => Raise ValueError
  | x :: xs' => Return (argmax_from xs' 1 0 x)
  end.

(** The larger of two entries, NaN when one of them is NaN. *)
Definition fmax (a b : fval) : fval :=
  match a, b with
  | NaN, _ => NaN
  | _, NaN => NaN
  | _, _ => if decide (flt a b) then b else a
  end.

(** [row.max()]: the largest entry of a row (NaN when the row holds one), an
    error on an empty row. *)
Definition row_max (xs : list fval) : outcome fval :=
  match xs with
  | [] => Raise IndexError
  | x :: xs' => Return (foldl fmax x xs')
  end.

(** [m] is a largest entry of [xs]. *)
Definition is_max (m : fval) (xs : list fval) : Prop :=
  m ∈ xs /\ forall x, x ∈ xs -> fle x m.

(** Element-wise combination of two tensors with torch's broadcasting of
    one-element operands: tensors of one length combine entry by entry, a
    tensor of one entry combines with every entry of the other, and any
    other pair of lengths is a RuntimeError. *)
Definition tensor_map2 (f : fval -> fval -> fval) (xs ys : tensor) : outcome tensor :=
  if decide (length xs = length ys) then Return (zip_with f xs ys)
  else
    match xs, ys with
    | [x], _ => Return (map (f x) ys)
    | _, [y] => Return (map (fun x => f x y) xs)
    | _, _ => Raise RuntimeError
    end.

Definition tensor_scale (c : fval) (xs : tensor) : tensor := map (fmul c) xs.
Definition tensor_rsub (c : fval) (xs : tensor) : tensor := map (fsub c) xs.
Definition tensor_mul : tensor -> tensor -> outcome tensor := tensor_map2 fmul.
Definition tensor_add : tensor -> tensor -> outcome tensor := tensor_map2 fadd.

(** [out.gather(1, actions)]: entry [actions[i]] of row [i], for every entry
    of the index column; an index outside the row, or more indices than
    rows, is a RuntimeError. *)
Fixpoint gather (rows : list (list fval)) (idx : list Z) : outcome tensor :=
  match idx with
  | [] => Return []
  | a :: idx' =>
      match rows with
      | [] => Raise RuntimeError
      | r :: rows' =>
          if decide (0 <= a)%Z then
            match r !! Z.to_nat a with
            | Some v =>
                match gather rows' idx' with
                | Return t => Return (v :: t)
                | Raise e => Raise e
                end
            | None => Raise RuntimeError
            end
          else Raise RuntimeError
      end
  end.

(** [F.mse_loss]: the mean of the squared differences. *)
Definition mse_loss (expected targets : tensor) : outcome fval :=
  match tensor_map2 (fun e t => ((e - t) * (e - t))%F) expected targets with
  | Return sq => Return (fdiv_count (fsum sq) (length sq))
  | Raise e => Raise e
  end.

Fixpoint mapM {A B} (f : A -> outcome B) (l : list A) : outcome (list B) :=
  match l with
  | [] => Return []
  | x :: l' =>
      match f x with
      | Return y =>
          match mapM f l' with
          | Return ys => Return (y :: ys)
          | Raise e => Raise e
          end
      | Raise e => Raise e
      end
  end.

(** ** External collaborators: the estimator and the optimizer

    [model.QNetwork] and [torch.optim.Adam] are not part of the file; they are
    taken through their interfaces. *)

Class Estimator : Type := {
  (** [QNetwork(state_size, action_size, seed)]: the initial parameters *)
  init_parameters : nat -> nat -> Z -> params;
  (** the forward evaluation of one example under a training flag; a
      RuntimeError when the input does not fit the first layer *)
  forward : bool -> params -> list fval -> outcome (list fval)
}.

Class Optimizer : Type := {
  opt_state : Type;
  (** [optim.Adam(parameters, lr)] *)
  optimizer_init : params -> fval -> opt_state;
  (** [zero_grad(); loss.backward(); step()]: one update of the parameters
      from the loss as a function of them *)
  minimize : opt_state -> (params -> outcome fval) -> params -> opt_state * params
}.

(** ** The agent *)

Record QNetwork : Type := mkQNetwork {
  parameters : params;
  training : bool      (* nn.Module.training: True after construction *)
}.

Record Batch : Type := mkBatch {
  states : list (list fval);
  actions : list Z;
  rewards : tensor;
  next_states : list (list fval);
  dones : tensor
}.

(** Methods whose calls the history records. *)
Inductive call : Type :=
  | CallAdd
  | CallSample
  | CallLearn
  | CallOptimizerStep
  | CallSoftUpdate.

#[global] Instance call_eq_dec : EqDecision call.
Proof. solve_decision. Defined.

Section Model.
Context `{Random} `{Estimator} `{Optimizer}.

Record Agent : Type := mkAgent {
  state_size : nat;
  action_size : nat;
  qnetwork_local : QNetwork;
  qnetwork_target : QNetwork;
  optimizer : opt_state;
  agent_memory : ReplayBuffer;
  t_step : nat
}.

(** The state every method runs in: the agent, the generator of the [random]
    module, and (ghost, read by no method) the history of method calls. *)
Record World : Type := mkWorld {
  agent : Agent;
  gen : rng;
  history : list call
}.

Definition M (A : Type) : Type := World -> outcome A * World.

Definition ret {A} (a : A) : M A := fun w => (Return a, w).
Definition bind {A B} (m : M A) (k : A -> M B) : M B :=
  fun w => match m w with
           | (Return a, w') => k a w'
           | (Raise e, w') => (Raise e, w')
           end.
Definition lift {A} (o : outcome A) : M A := fun w => (o, w).
Definition get_agent : M Agent := fun w => (Return (agent w), w).
Definition put_agent (a : Agent) : M unit :=
  fun w => (Return tt, mkWorld a (gen w) (history w)).
Definition record_call (c : call) : M unit :=
  fun w => (Return tt, mkWorld (agent w) (gen w) (history w ++ [c])).
Definition with_gen {A} (f : rng -> A * rng) : M A :=
  fun w => let '(a, g) := f (gen w) in (Return a, mkWorld (agent w) g (history w)).
Definition with_gen_outcome {A} (f : rng -> outcome A * rng) : M A :=
  fun w => let '(o, g) := f (gen w) in (o, mkWorld (agent w) g (history w)).

Notation "x <- m ;; k" := (bind m (fun x => k))
  (at level 100, m at next level, right associativity).
Notation "m ;;; k" := (bind m (fun _ => k))
  (at level 100, right associativity).

Definition set_qnetwork_local (a : Agent) (q : QNetwork) : Agent :=
  mkAgent (state_size a) (action_size a) q (qnetwork_target a)
          (optimizer a) (agent_memory a) (t_step a).
Definition set_qnetwork_target (a : Agent) (q : QNetwork) : Agent :=
  mkAgent (state_size a) (action_size a) (qnetwork_local a) q
          (optimizer a) (agent_memory a) (t_step a).
Definition set_optimizer (a : Agent) (o : opt_state) : Agent :=
  mkAgent (state_size a) (action_size a) (qnetwork_local a) (qnetwork_target a)
          o (agent_memory a) (t_step a).
Definition set_memory (a : Agent) (rb : ReplayBuffer) : Agent :=
  mkAgent (state_size a) (action_size a) (qnetwork_local a) (qnetwork_target a)
          (optimizer a) rb (t_step a).
Definition set_t_step (a : Agent) (t : nat) : Agent :=
  mkAgent (state_size a) (action_size a) (qnetwork_local a) (qnetwork_target a)
          (optimizer a) (agent_memory a) t.

(** [Agent.__init__] (lines 37-49). *)
Definition Agent_init (state_size action_size : nat) (seed : Z) : World :=
  let local := mkQNetwork (init_parameters state_size action_size seed) true in
  let target := mkQNetwork (init_parameters state_size action_size seed) true in
  mkWorld
    (mkAgent state_size action_size local target
             (optimizer_init (parameters local) LR)
             (ReplayBuffer_init action_size BUFFER_SIZE BATCH_SIZE) 0)
    (random_seed seed) [].

(** The five arrays of [ReplayBuffer.sample] (lines 224-228), built in this
    order from the sampled records. *)
Definition build_batch (experiences : list Experience) : outcome Batch :=
  match vstack (map state experiences) with
  | Raise e => Raise e
  | Return states =>
  match vstack_scalars (map action experiences) with
  | Raise e => Raise e
  | Return action_column =>
  match to_long action_column with
  | Raise e => Raise e
  | Return actions =>
  match vstack_scalars (map reward experiences) with
  | Raise e => Raise e
  | Return rewards =>
  match vstack (map next_state experiences) with
  | Raise e => Raise e
  | Return next_states =>
  match vstack_scalars (map done experiences) with
  | Raise e => Raise e
  | Return dones =>
      Return (mkBatch states actions rewards next_states
                (map (fun d : bool => if d then 1%F else 0%F) dones))
  end end end end end end.

(** [ReplayBuffer.sample] (lines 222-230): the batch, and the buffer and the
    generator after the call. *)
Definition sample (rb : ReplayBuffer) (g : rng) : outcome Batch * ReplayBuffer * rng :=
  match random_sample (items (memory rb)) (batch_size rb) g with
  | (Raise e, g') => (Raise e, rb, g')
  | (Return experiences, g') => (build_batch experiences, rb, g')
  end.

(** [self.memory.add(...)] and [self.memory.sample()] as the agent calls them. *)
Definition memory_add (s : list fval) (a : Z) (r : fval) (s' : list fval) (d : bool)
    : M unit :=
  record_call CallAdd ;;;
  ag <- get_agent ;;
  put_agent (set_memory ag (add (agent_memory ag) s a r s' d)).

Definition memory_sample : M Batch :=
  record_call CallSample ;;;
  fun w =>
    let '(o, rb, g) := sample (agent_memory (agent w)) (gen w) in
    (o, mkWorld (set_memory (agent w) rb) g (history w)).

(** One iteration of the loop of [Agent.soft_update] (line 160): the new
    data of the target tensor, a RuntimeError when the two tensors do not
    combine or the result does not fit the target tensor ([copy_]). *)
Definition soft_update_tensor (t l : tensor) (tau : fval) : outcome tensor :=
  match tensor_add (tensor_scale tau l) (tensor_scale (1 - tau)%F t) with
  | Return v => if decide (length v = length t) then Return v else Raise RuntimeError
  | Raise e => Raise e
  end.

(** The loop of [Agent.soft_update] (lines 159-160) over the zipped parameter
    sequences: the outcome and the target parameters after it. *)
Fixpoint soft_update_params (target local : params) (tau : fval) : outcome unit * params :=
  match target, local with
  | t :: ts, l :: ls =>
      match soft_update_tensor t l tau with
      | Return v =>
          let '(o, ts') := soft_update_params ts ls tau in (o, v :: ts')
      | Raise e => (Raise e, t :: ts)
      end
  | _, _ => (Return tt, target)
  end.

(** [Agent.soft_update], called on the agent's own two networks. *)
Definition soft_update (tau : fval) : M unit :=
  record_call CallSoftUpdate ;;;
  fun w =>
    let a := agent w in
    let '(o, th) := soft_update_params (parameters (qnetwork_target a))
                      (parameters (qnetwork_local a)) tau in
    (o, mkWorld (set_qnetwork_target a (mkQNetwork th (training (qnetwork_target a))))
                (gen w) (history w)).

(** [network(batch)]: the forward evaluation of every row. *)
Definition network_call (q : QNetwork) (rows : list (list fval))
    : outcome (list (list fval)) :=
  mapM (forward (training q) (parameters q)) rows.

(** Lines 122 and 126 of [Agent.learn]. *)
Definition compute_Q_targets_next (target : QNetwork) (next_states : list (list fval))
    : outcome tensor :=
  match network_call target next_states with
  | Return outs => mapM row_max outs
  | Raise e => Raise e
  end.

Definition compute_Q_targets (rewards : tensor) (gamma : fval) (Q_targets_next dones : tensor)
    : outcome tensor :=
  match tensor_mul (tensor_scale gamma Q_targets_next) (tensor_rsub 1%F dones) with
  | Return v => tensor_add rewards v
  | Raise e => Raise e
  end.

(** Lines 130 and 134: the loss as a function of the online parameters. *)
Definition loss_of (training_flag : bool) (b : Batch) (Q_targets : tensor) (th : params)
    : outcome fval :=
  match network_call (mkQNetwork th training_flag) (states b) with
  | Return outs =>
      match gather outs (actions b) with
      | Return Q_expected => mse_loss Q_expected Q_targets
      | Raise e => Raise e
      end
  | Raise e => Raise e
  end.

(** [Agent.learn] (lines 117-142). *)
Definition learn (experiences : Batch) (gamma : fval) : M unit :=
  record_call CallLearn ;;;
  a <- get_agent ;;
  Q_targets_next <- lift (compute_Q_targets_next (qnetwork_target a) (next_states experiences)) ;;
  Q_targets <- lift (compute_Q_targets (rewards experiences) gamma Q_targets_next
                       (dones experiences)) ;;
  let loss := loss_of (training (qnetwork_local a)) experiences Q_targets in
  _ <- lift (loss (parameters (qnetwork_local a))) ;;
  record_call CallOptimizerStep ;;;
  (let '(o, th) := minimize (optimizer a) loss (parameters (qnetwork_local a)) in
   put_agent (set_optimizer
                (set_qnetwork_local a (mkQNetwork th (training (qnetwork_local a)))) o)) ;;;
  soft_update TAU.

(** [Agent.step] (lines 67-77). *)
Definition step (s : list fval) (a : Z) (r : fval) (s' : list fval) (d : bool) : M unit :=
  memory_add s a r s' d ;;;
  ag <- get_agent ;;
  put_agent (set_t_step ag ((t_step ag + 1) mod UPDATE_EVERY)) ;;;
  ag <- get_agent ;;
  if decide (t_step ag = 0) then
    if decide (BATCH_SIZE < len (agent_memory ag)) then
      experiences <- memory_sample ;;
      learn experiences GAMMA
    else ret tt
  else ret tt.

(** [np.arange(n)] *)
Definition arange (n : nat) : list nat := seq 0 n.

Definition set_training (q : QNetwork) (flag : bool) : QNetwork :=
  mkQNetwork (parameters q) flag.

(** [self.qnetwork_local.eval()], [.train()] and the call of the network on
    one state (lines 91-96). *)
Definition local_eval : M unit :=
  ag <- get_agent ;; put_agent (set_qnetwork_local ag (set_training (qnetwork_local ag) false)).
Definition local_train : M unit :=
  ag <- get_agent ;; put_agent (set_qnetwork_local ag (set_training (qnetwork_local ag) true)).
Definition local_forward (s : list fval) : M (list fval) :=
  ag <- get_agent ;;
  lift (forward (training (qnetwork_local ag)) (parameters (qnetwork_local ag)) s).

(** [Agent.act] (lines 91-104). *)
Definition act (s : list fval) (eps : Qc) : M nat :=
  local_eval ;;;
  action_values <- local_forward s ;;
  local_train ;;;
  u <- with_gen random_random ;;
  if decide (eps < u)%Qc then
    lift (argmax action_values)
  else
    ag <- get_agent ;;
    with_gen_outcome (random_choice (arange (action_size ag))).

(** ** Notions the properties are stated with *)

(** The agent's state the moment [step] has stored the record and advanced
    the counter. *)
Definition ingested (w : World) (s : list fval) (a : Z) (r : fval) (s' : list fval)
    (d : bool) : Agent :=
  set_t_step (set_memory (agent w) (add (agent_memory (agent w)) s a r s' d))
             ((t_step (agent w) + 1) mod UPDATE_EVERY).

(** The condition under which [step] samples and learns. *)
Definition triggers (w : World) (s : list fval) (a : Z) (r : fval) (s' : list fval)
    (d : bool) : Prop :=
  (t_step (agent w) + 1) mod UPDATE_EVERY = 0 /\
  BATCH_SIZE < len (add (agent_memory (agent w)) s a r s' d).

(** How often a method was called so far. *)
Definition count_calls (c : call) (w : World) : nat :=
  length (filter (fun x => x = c) (history w)).

(** The forward part of [learn] (lines 122-134): the targets, once the loss
    was computed on the current online parameters. *)
Definition learn_forward (w : World) (b : Batch) (gamma : fval) : outcome (list fval) :=
  match compute_Q_targets_next (qnetwork_target (agent w)) (next_states b) with
  | Raise e => Raise e
  | Return Q_targets_next =>
      match compute_Q_targets (rewards b) gamma Q_targets_next (dones b) with
      | Raise e => Raise e
      | Return Q_targets =>
          match loss_of (training (qnetwork_local (agent w))) b Q_targets
                  (parameters (qnetwork_local (agent w))) with
          | Raise e => Raise e
          | Return _ => Return Q_targets
          end
      end
  end.

(** The agent after the optimizer step of [learn] (lines 136-138). *)
Definition after_gradient_step (w : World) (b : Batch) (Q_targets : list fval) : Agent :=
  let a := agent w in
  let '(o, th) := minimize (optimizer a)
                    (loss_of (training (qnetwork_local a)) b Q_targets)
                    (parameters (qnetwork_local a)) in
  set_optimizer (set_qnetwork_local a (mkQNetwork th (training (qnetwork_local a)))) o.

(** What [learn] does once the targets [Q_targets] are computed (lines
    130-142): the loss on the current online parameters, one optimizer step
    on that loss, and the soft update of the target network. *)
Definition learn_from_targets (w : World) (b : Batch) (Q_targets : list fval)
    : outcome unit * World :=
  match loss_of (training (qnetwork_local (agent w))) b Q_targets
          (parameters (qnetwork_local (agent w))) with
  | Raise e => (Raise e, mkWorld (agent w) (gen w) (history w ++ [CallLearn]))
  | Return _ =>
      let a1 := after_gradient_step w b Q_targets in
      let '(o, th) := soft_update_params (parameters (qnetwork_target a1))
                        (parameters (qnetwork_local a1)) TAU in
      (o, mkWorld (set_qnetwork_target a1 (mkQNetwork th (training (qnetwork_target a1))))
                  (gen w) (history w ++ [CallLearn; CallOptimizerStep; CallSoftUpdate]))
  end.

(** A run of [step] calls, one per record; the caller goes on after an
    exception. *)
Definition step_record (e : Experience) : M unit :=
  step (state e) (action e) (reward e) (next_state e) (done e).

Definition run_steps (es : list Experience) (w : World) : World :=
  foldl (fun w e => (step_record e w).2) w es.

(** A record that fits an agent with state size [n]: the state and the next
    state have [n] entries and the action is an [int64]. *)
Definition well_formed (n : nat) (e : Experience) : Prop :=
  length (state e) = n /\ length (next_state e) = n /\ fits_int64 (action e).

(** The world with the training flag of the online network set to [fl]. *)
Definition with_local_training (w : World) (fl : bool) : World :=
  mkWorld (set_qnetwork_local (agent w) (set_training (qnetwork_local (agent w)) fl))
          (gen w) (history w).

(** The agent's buffer samples [BATCH_SIZE] records and holds well-formed
    records only. *)
Definition agent_ok (a : Agent) : Prop :=
  batch_size (agent_memory a) = BATCH_SIZE /\
  Forall (well_formed (state_size a)) (items (memory (agent_memory a))).

End Model.

(** * Example collaborators

    A small generator, a linear estimator and a decaying optimizer on which
    the model runs on concrete inputs. *)

(** A linear congruential generator; [random()] reads the low ten bits as a
    fraction, [_randbelow(n)] reduces modulo [n]. *)
Definition lcg_next (g : N) : N := ((g * 1103515245 + 12345) mod 2147483648)%N.

Definition lcg_random (g : N) : Qc * N :=
  (Q2Qc (Z.of_N (g mod 1024) # 1024), lcg_next g).

Definition lcg_randbelow (n : nat) (g : N) : nat * N :=
  (N.to_nat (g mod N.of_nat n), lcg_next g).

Lemma lcg_random_range (g : N) :
  (0 <= (lcg_random g).1)%Qc /\ ((lcg_random g).1 < 1)%Qc.
Proof.
  unfold lcg_random, Qcle, Qclt. cbn [fst this Q2Qc].
  assert (Hlt : (g mod 1024 < 1024)%N) by (apply N.mod_lt; discriminate).
  set (m := (g mod 1024)%N) in *. clearbody m.
  split.
  - rewrite !Qred_correct. unfold Qle. cbn [Qnum Qden]. lia.
  - rewrite !Qred_correct. unfold Qlt. cbn [Qnum Qden]. lia.
Qed.

Lemma lcg_randbelow_range (n : nat) (g : N) :
  0 < n -> (lcg_randbelow n g).1 < n.
Proof.
  intros Hn. unfold lcg_randbelow. cbn [fst].
  assert (Hlt : (g mod N.of_nat n < N.of_nat n)%N) by (apply N.mod_lt; lia).
  set (m := (g mod N.of_nat n)%N) in *. clearbody m. lia.
Qed.

#[global] Instance lcg : Random := {|
  rng := N;
  random_seed := Z.to_N;
  random_random := lcg_random;
  random_random_range := lcg_random_range;
  randbelow := lcg_randbelow;
  randbelow_range := lcg_randbelow_range
|}.

(** One linear layer without bias: a parameter tensor per action, its dot
    product with the state; a RuntimeError when the lengths differ. *)
Definition dot (w x : list fval) : outcome fval :=
  if decide (length w = length x) then Return (fsum (zip_with fmul w x))
  else Raise RuntimeError.

Definition linear_forward (flag : bool) (th : params) (x : list fval) : outcome (list fval) :=
  mapM (fun w => dot w x) th.

Definition linear_init (state_size action_size : nat) (seed : Z) : params :=
  map (fun j => replicate state_size (Fin (of_nat j))) (seq 0 action_size).

#[global] Instance linear_estimator : Estimator := {|
  init_parameters := linear_init;
  forward := linear_forward
|}.

(** An optimizer that shrinks every parameter by the learning rate. *)
Definition decay_minimize (lr : fval) (loss : params -> outcome fval) (th : params)
    : fval * params :=
  (lr, map (tensor_scale (1 - lr)%F) th).

#[global] Instance decay_optimizer : Optimizer := {|
  opt_state := fval;
  optimizer_init := fun _ lr => lr;
  minimize := decay_minimize
|}.

(** Example data: an agent with two state components and three actions, a
    well-formed record, and a record that fits neither size. *)
Definition qz (z : Z) : Qc := Q2Qc (inject_Z z).
Definition fz (z : Z) : fval := Fin (qz z).

Definition example_world : World := Agent_init 2 3 0.

Definition example_gen : @rng lcg := 5%N.

Definition example_record (i : Z) : Experience :=
  mkExperience [fz i; fz 1] (i mod 3) (fz i) [fz (i + 1); fz 1] (Z.even i).

Definition example_buffer : ReplayBuffer :=
  add_all (ReplayBuffer_init 3 10 2) [example_record 1; example_record 2; example_record 3].

Definition malformed_state : list fval := [fz 1; fz 2; fz 3].

(** The example agent with a generator whose next draw is positive. *)
Definition example_world_pos : World :=
  mkWorld (agent example_world) example_gen (history example_world).

(** An agent that has ingested 67 transitions. *)
Definition example_world_67 : World :=
  mkWorld
    (set_t_step
       (set_memory (agent example_world)
          (mkReplayBuffer 3 (mkDeque (replicate 67 (example_record 1)) BUFFER_SIZE) BATCH_SIZE))
       3)
    (gen example_world) (history example_world).

(** The same agent with a target network built for states of one
    component. *)
Definition example_world_67_broken : World :=
  mkWorld (set_qnetwork_target (agent example_world_67) (mkQNetwork [[fz 1]] true))
          (gen example_world_67) (history example_world_67).

(** A batch whose only action is 7. *)
Definition bad_action_batch : Batch :=
  mkBatch [[fz 1; fz 1]] [7%Z] [fz 5] [[fz 3; fz 1]] [fz 0].

(** A batch of one terminal transition with reward 5. *)
Definition terminal_batch : Batch :=
  mkBatch [[fz 1; fz 1]] [0%Z] [fz 5] [[fz 3; fz 1]] [1%F].

(** The example agent with a target network that holds an infinite
    parameter. *)
Definition example_world_inf : World :=
  mkWorld (set_qnetwork_target (agent example_world)
             (mkQNetwork [[fz 1; fz 1]; [PInf; fz 1]] true))
          (gen example_world) (history example_world).

(** A run of 67 transitions of which the last 33 have states of three
    components. *)
Definition ragged_record : Experience :=
  mkExperience malformed_state 0 (fz 0) malformed_state false.

Definition ragged_run : list Experience :=
  replicate 34 (example_record 1) ++ replicate 33 ragged_record.

(** * Properties *)

(** ** The replay buffer keeps the most recent [maxlen] records *)

Lemma tail_drop {A} (l : list A) : tail l = drop 1 l.
Proof. by destruct l. Qed.

Lemma most_recent_length {A} (n : nat) (l : list A) :
  length (most_recent n l) = min n (length l).
Proof. unfold most_recent. rewrite length_drop. lia. Qed.

Lemma deque_append_maxlen {A} (d : deque A) (x : A) :
  maxlen (deque_append d x) = maxlen d.
Proof. reflexivity. Qed.

(** One append moves the window of the most recent records by one. *)
Lemma deque_append_most_recent {A} (d : deque A) (h : list A) (x : A) :
  items d = most_recent (maxlen d) h ->
  items (deque_append d x) = most_recent (maxlen d) (h ++ [x]).
Proof.
  intros Hd. unfold deque_append. simpl. rewrite Hd.
  unfold most_recent. rewrite !length_app, length_drop. simpl.
  case_decide.
  - rewrite tail_drop.
    replace (length h + 1 - maxlen d) with ((length h - maxlen d) + 1) by lia.
    rewrite <- drop_drop. f_equal.
    rewrite drop_app_le by lia. done.
  - replace (length h + 1 - maxlen d) with (length h - maxlen d) by lia.
    rewrite drop_app_le by lia. done.
Qed.

(** An append on a full deque drops the oldest element of the extended list. *)
Lemma deque_append_full {A} (d : deque A) (x : A) :
  length (items d) = maxlen d ->
  items (deque_append d x) = tail (items d ++ [x]).
Proof.
  intros Hfull. unfold deque_append. simpl.
  rewrite length_app. simpl. case_decide; [done | lia].
Qed.

Lemma add_record_memory (rb : ReplayBuffer) (e : Experience) :
  memory (add_record rb e) = deque_append (memory rb) e.
Proof. by destruct e. Qed.

Lemma add_all_snoc (rb : ReplayBuffer) (es : list Experience) (e : Experience) :
  add_all rb (es ++ [e]) = add_record (add_all rb es) e.
Proof. unfold add_all. by rewrite foldl_app. Qed.

Lemma add_all_memory (action_size C B : nat) (es : list Experience) :
  maxlen (memory (add_all (ReplayBuffer_init action_size C B) es)) = C /\
  items (memory (add_all (ReplayBuffer_init action_size C B) es)) = most_recent C es.
Proof.
  induction es as [|e es [IHm IHi]] using rev_ind.
  - by split.
  - rewrite add_all_snoc, add_record_memory. split.
    + by rewrite deque_append_maxlen.
    + rewrite <- IHm at 2. apply deque_append_most_recent. by rewrite IHm.
Qed.

(** C2. Starting from an empty Replay Store of capacity [C], after any
    sequence [es] of insertions the size is at most [C]; once more than [C]
    records were inserted the size is exactly [C] and the contents are
    exactly the [C] most recent insertions, in insertion order; and an
    insertion at capacity drops the oldest record. *)
Theorem replay_capacity_fifo (action_size C B : nat) (es : list Experience) :
  let rb := add_all (ReplayBuffer_init action_size C B) es in
  len rb <= C /\
  (C < length es -> len rb = C /\ items (memory rb) = most_recent C es) /\
  (forall e, len rb = C ->
     items (memory (add_record rb e)) = tail (items (memory rb) ++ [e])).
Proof.
  intros rb. subst rb.
  destruct (add_all_memory action_size C B es) as [Hm Hi].
  unfold len. rewrite Hi, most_recent_length.
  split; [lia|]. split.
  - intros Hlt. split; [lia | done].
  - intros e Hfull. rewrite add_record_memory.
    rewrite <- Hi. apply deque_append_full.
    rewrite Hm, Hi, most_recent_length. done.
Qed.

(** ** Tensor entries: order and the non-finite values *)

Lemma fle_refl (x : fval) : x <> NaN -> fle x x.
Proof. destruct x; simpl; try done; intros _; apply Qcle_refl. Qed.

Lemma flt_fle (x y : fval) : flt x y -> fle x y.
Proof. destruct x, y; simpl; try done; apply Qclt_le_weak. Qed.

Lemma fle_trans (x y z : fval) : fle x y -> fle y z -> fle x z.
Proof. destruct x, y, z; simpl; try done; apply Qcle_trans. Qed.

Lemma fle_flt_trans (x y z : fval) : fle x y -> flt y z -> flt x z.
Proof. destruct x, y, z; simpl; try done; apply Qcle_lt_trans. Qed.

Lemma not_flt_fle (a b : fval) : a <> NaN -> b <> NaN -> ~ flt a b -> fle b a.
Proof. destruct a, b; simpl; try done; intros _ _; apply Qcnot_lt_le. Qed.

Lemma not_fle_flt (x b : fval) : x <> NaN -> b <> NaN -> ~ fle x b -> flt b x.
Proof. destruct x, b; simpl; try done; intros _ _; apply Qcnot_le_lt. Qed.

Lemma fle_not_NaN (x y : fval) : fle x y -> x <> NaN /\ y <> NaN.
Proof. by destruct x, y. Qed.

Lemma fadd_0_r (x : fval) : (x + 0)%F = x.
Proof. destruct x; simpl; try done; f_equal; ring. Qed.

Lemma fadd_NaN_r (x : fval) : (x + NaN)%F = NaN.
Proof. by destruct x. Qed.

Lemma fsub_1_1 : (1 - 1)%F = 0%F.
Proof. unfold fsub. simpl. f_equal; ring. Qed.

Lemma fmul_0_r_finite (x : fval) : is_finite x -> (x * 0)%F = 0%F.
Proof. destruct x; simpl; try done; intros _; f_equal; ring. Qed.

Lemma fmul_0_r_not_finite (x : fval) : ~ is_finite x -> (x * 0)%F = NaN.
Proof. destruct x; simpl; try done; tauto. Qed.

Lemma fmax_NaN_r (a : fval) : fmax a NaN = NaN.
Proof. by destruct a. Qed.

Lemma fmax_l (a b : fval) : a <> NaN -> b <> NaN -> fle a (fmax a b).
Proof.
  intros Ha Hb. destruct a, b; try done; unfold fmax; case_decide;
    (by apply flt_fle) || (by apply fle_refl).
Qed.

Lemma fmax_r (a b : fval) : a <> NaN -> b <> NaN -> fle b (fmax a b).
Proof.
  intros Ha Hb. destruct a, b; try done; unfold fmax; case_decide;
    (by apply fle_refl) || (by apply not_flt_fle).
Qed.

Lemma fmax_cases (a b : fval) : a <> NaN -> b <> NaN -> fmax a b = a \/ fmax a b = b.
Proof.
  intros Ha Hb. destruct a, b; try done; unfold fmax; case_decide; auto.
Qed.

(** ** Batched operations *)

Lemma tensor_map2_zip_with (f : fval -> fval -> fval) (xs ys : tensor) :
  length xs = length ys -> tensor_map2 f xs ys = Return (zip_with f xs ys).
Proof. intros Hlen. unfold tensor_map2. by rewrite decide_True. Qed.

Lemma mapM_Return {A B} (f : A -> outcome B) (l : list A) (ys : list B) :
  mapM f l = Return ys <-> Forall2 (fun x y => f x = Return y) l ys.
Proof.
  revert ys. induction l as [|x l IH]; intros ys; simpl.
  - split; [intros; simplify_eq; constructor | by inversion 1].
  - destruct (f x) as [y|e] eqn:Hfx.
    + destruct (mapM f l) as [ys'|e] eqn:Hl.
      * split.
        -- intros; simplify_eq. constructor; [done | by apply IH].
        -- inversion 1 as [|? y' ? ys'' Hy Hys]; subst.
           apply IH in Hys. congruence.
      * split; [done|]. inversion 1 as [|? y' ? ys'' Hy Hys]; subst.
        apply IH in Hys. congruence.
    + split; [done|]. inversion 1; congruence.
Qed.

Lemma mapM_total {A B} (f : A -> outcome B) (l : list A) :
  Forall (fun x => exists y, f x = Return y) l -> exists ys, mapM f l = Return ys.
Proof.
  induction 1 as [|x l [y Hy] _ [ys Hys]]; simpl.
  - by eexists.
  - rewrite Hy, Hys. by eexists.
Qed.

Lemma foldl_fmax_NaN (xs : list fval) : foldl fmax NaN xs = NaN.
Proof. induction xs as [|y ys IH]; simpl; done. Qed.

Lemma foldl_fmax_has_NaN (x : fval) (xs : list fval) :
  NaN ∈ x :: xs -> foldl fmax x xs = NaN.
Proof.
  revert x. induction xs as [|y ys IH]; intros x Hin; simpl.
  - by apply list_elem_of_singleton in Hin.
  - apply elem_of_cons in Hin as [<-|Hin]; [apply foldl_fmax_NaN|].
    apply elem_of_cons in Hin as [<-|Hin].
    + rewrite fmax_NaN_r. apply foldl_fmax_NaN.
    + apply IH. by constructor.
Qed.

Lemma foldl_fmax_is_max (x : fval) (xs : list fval) :
  NaN ∉ x :: xs -> is_max (foldl fmax x xs) (x :: xs).
Proof.
  revert x. induction xs as [|y ys IH]; intros x Hnan; simpl.
  - split; [apply list_elem_of_here|]. intros z Hz.
    apply list_elem_of_singleton in Hz. subst. apply fle_refl.
    intros ->. apply Hnan. constructor.
  - assert (Hx : x <> NaN) by (intros ->; apply Hnan; constructor).
    assert (Hy : y <> NaN) by (intros ->; apply Hnan; repeat constructor).
    assert (Hys : NaN ∉ ys) by (intros Hin; apply Hnan; by repeat constructor).
    destruct (IH (fmax x y)) as [Hin Hle].
    { intros Hin. apply elem_of_cons in Hin as [Heq|Hin]; [|done].
      destruct (fmax_cases x y Hx Hy) as [E|E]; congruence. }
    split.
    + apply elem_of_cons in Hin as [Heq|Hin].
      * rewrite Heq. destruct (fmax_cases x y Hx Hy) as [->| ->]; repeat constructor.
      * by do 2 constructor.
    + intros z Hz.
      assert (Hm : fle (fmax x y) (foldl fmax (fmax x y) ys))
        by (apply Hle; constructor).
      apply elem_of_cons in Hz as [->|Hz]; [|apply elem_of_cons in Hz as [->|Hz]].
      * eapply fle_trans; [apply (fmax_l x y Hx Hy) | done].
      * eapply fle_trans; [apply (fmax_r x y Hx Hy) | done].
      * apply Hle. by constructor.
Qed.

Lemma row_max_is_max (xs : list fval) (m : fval) :
  row_max xs = Return m -> NaN ∉ xs -> is_max m xs.
Proof.
  destruct xs as [|x xs]; simpl; [done|]. intros; simplify_eq.
  by apply foldl_fmax_is_max.
Qed.

Lemma row_max_NaN (xs : list fval) (m : fval) :
  row_max xs = Return m -> NaN ∈ xs -> m = NaN.
Proof.
  destruct xs as [|x xs]; simpl; [done|]. intros; simplify_eq.
  by apply foldl_fmax_has_NaN.
Qed.

Lemma row_max_nonempty (xs : list fval) : xs <> [] -> exists m, row_max xs = Return m.
Proof. destruct xs; [done|]. by eexists. Qed.

Lemma compute_Q_targets_same_length (rewards : tensor) (gamma : fval)
    (Q_targets_next dones : tensor) :
  length rewards = length Q_targets_next -> length dones = length Q_targets_next ->
  compute_Q_targets rewards gamma Q_targets_next dones =
    Return (zip_with fadd rewards
              (zip_with fmul (tensor_scale gamma Q_targets_next) (tensor_rsub 1%F dones))).
Proof.
  intros Hr Hd.
  unfold compute_Q_targets, tensor_mul, tensor_add, tensor_scale, tensor_rsub.
  rewrite tensor_map2_zip_with by (rewrite !length_map; lia).
  rewrite tensor_map2_zip_with by (rewrite length_zip_with, !length_map; lia).
  done.
Qed.

(** ** The agent's methods, step by step *)

Section AgentFacts.
Context `{Random} `{Estimator} `{Optimizer}.

#[global] Instance triggers_dec w s a r s' d : Decision (triggers w s a r s' d).
Proof. unfold triggers. apply _. Defined.

Lemma sample_buffer_unchanged (rb : ReplayBuffer) (g : rng) : (sample rb g).1.2 = rb.
Proof.
  unfold sample. destruct (random_sample _ _ _) as [[exps|e] g']; done.
Qed.

Lemma set_memory_same (a : Agent) : set_memory a (agent_memory a) = a.
Proof. by destruct a. Qed.

Lemma step_unfold (s : list fval) (a : Z) (r : fval) (s' : list fval) (d : bool) (w : World) :
  step s a r s' d w =
    if decide (triggers w s a r s' d) then
      let w2 := mkWorld (ingested w s a r s' d) (sample (agent_memory (ingested w s a r s' d)) (gen w)).2
                        (history w ++ [CallAdd; CallSample]) in
      match (sample (agent_memory (ingested w s a r s' d)) (gen w)).1.1 with
      | Return b => learn b GAMMA w2
      | Raise e => (Raise e, w2)
      end
    else (Return tt, mkWorld (ingested w s a r s' d) (gen w) (history w ++ [CallAdd])).
Proof.
  unfold step, memory_add, memory_sample, bind, record_call, get_agent, put_agent, ret.
  cbn [agent gen history].
  change (set_t_step _ _) with (ingested w s a r s' d).
  unfold triggers.
  destruct (decide (t_step (ingested w s a r s' d) = 0)) as [Ht|Ht];
    cbn [ingested set_t_step t_step] in Ht.
  - destruct (decide (BATCH_SIZE < len (agent_memory (ingested w s a r s' d)))) as [Hb|Hb];
      cbn [ingested set_t_step set_memory agent_memory] in Hb.
    + rewrite decide_True by done.
      pose proof (sample_buffer_unchanged (agent_memory (ingested w s a r s' d)) (gen w)) as Hs.
      destruct (sample _ _) as [[o rb] g]. cbn [fst snd] in *. subst rb.
      rewrite set_memory_same. cbn [history]. rewrite <- app_assoc. cbn [app].
      by destruct o.
    + rewrite decide_False by tauto. done.
  - rewrite decide_False by tauto. done.
Qed.

(** [learn] computes the targets from the agent's target network and goes on
    with them. *)
Lemma learn_targets (b : Batch) (gamma : fval) (w : World) :
  learn b gamma w =
    match compute_Q_targets_next (qnetwork_target (agent w)) (next_states b) with
    | Raise e => (Raise e, mkWorld (agent w) (gen w) (history w ++ [CallLearn]))
    | Return Q_targets_next =>
        match compute_Q_targets (rewards b) gamma Q_targets_next (dones b) with
        | Raise e => (Raise e, mkWorld (agent w) (gen w) (history w ++ [CallLearn]))
        | Return Q_targets => learn_from_targets w b Q_targets
        end
    end.
Proof.
  unfold learn, learn_from_targets, after_gradient_step, soft_update, bind, record_call,
    get_agent, put_agent, lift.
  cbn [agent gen history].
  destruct (compute_Q_targets_next _ _) as [qn|e]; [|done].
  destruct (compute_Q_targets _ _ _ _) as [qt|e]; [|done].
  destruct (loss_of _ _ _ _) as [l|e]; [|done].
  destruct (minimize _ _ _) as [o th]. cbn [agent gen history].
  rewrite <- !app_assoc. cbn [app].
  by destruct (soft_update_params _ _ _).
Qed.

Lemma learn_unfold (b : Batch) (gamma : fval) (w : World) :
  learn b gamma w =
    match learn_forward w b gamma with
    | Raise e => (Raise e, mkWorld (agent w) (gen w) (history w ++ [CallLearn]))
    | Return Q_targets =>
        let a1 := after_gradient_step w b Q_targets in
        let '(o, th) := soft_update_params (parameters (qnetwork_target a1))
                          (parameters (qnetwork_local a1)) TAU in
        (o, mkWorld (set_qnetwork_target a1 (mkQNetwork th (training (qnetwork_target a1))))
                    (gen w) (history w ++ [CallLearn; CallOptimizerStep; CallSoftUpdate]))
    end.
Proof.
  rewrite learn_targets. unfold learn_forward, learn_from_targets.
  destruct (compute_Q_targets_next _ _) as [qn|e]; [|done].
  destruct (compute_Q_targets _ _ _ _) as [qt|e]; [|done].
  by destruct (loss_of _ _ _ _) as [l|e].
Qed.

End AgentFacts.

(** ** The Bellman target of [Agent.learn] *)

Section BellmanTarget.
Context `{Random} `{Estimator} `{Optimizer}.

(** C1, as the code has it. For a batch whose reward, next-state and done
    columns have one length and on whose next states the agent's target
    network returns non-empty rows, [learn] goes on (loss, optimizer step,
    soft update) with targets [Q_targets] such that [Q_targets[i] =
    rewards[i] + gamma * m * (1 - dones[i])], where [m] is the result of
    [max] on the row the target network returns for [next_states[i]]: a
    largest entry of the row, or NaN when the row holds a NaN. Where
    [dones[i] = 1] the target is [rewards[i]] when [gamma * m] is finite,
    and NaN when it is not. *)
Theorem bellman_target (b : Batch) (gamma : fval) (w : World) :
  length (rewards b) = length (next_states b) ->
  length (dones b) = length (next_states b) ->
  Forall (fun s' => exists out,
            forward (training (qnetwork_target (agent w)))
                    (parameters (qnetwork_target (agent w))) s' = Return out /\ out <> [])
         (next_states b) ->
  exists Q_targets,
    learn b gamma w = learn_from_targets w b Q_targets /\
    length Q_targets = length (next_states b) /\
    forall i r s' d,
      rewards b !! i = Some r -> next_states b !! i = Some s' -> dones b !! i = Some d ->
      exists out m,
        forward (training (qnetwork_target (agent w)))
                (parameters (qnetwork_target (agent w))) s' = Return out /\
        row_max out = Return m /\
        (NaN ∉ out -> is_max m out) /\
        (NaN ∈ out -> m = NaN) /\
        Q_targets !! i = Some (r + gamma * m * (1 - d))%F /\
        (d = 1%F -> is_finite (gamma * m)%F -> Q_targets !! i = Some r) /\
        (d = 1%F -> ~ is_finite (gamma * m)%F -> Q_targets !! i = Some NaN).
Proof.
  intros Hr Hd Hfw.
  set (target := qnetwork_target (agent w)) in *.
  destruct (mapM_total (forward (training target) (parameters target)) (next_states b))
    as [outs Houts].
  { eapply Forall_impl; [exact Hfw|]. intros s' (out & Ho & _). eauto. }
  pose proof Houts as Hall. apply mapM_Return in Hall.
  destruct (mapM_total row_max outs) as [qn Hqn].
  { apply Forall_forall. intros out Hin.
    apply list_elem_of_lookup in Hin as [i Hi].
    destruct (Forall2_lookup_r _ _ _ _ _ Hall Hi) as (s' & Hs' & Hfs).
    apply row_max_nonempty.
    destruct (proj1 (Forall_lookup _ _) Hfw _ _ Hs') as (out' & Ho' & Hne).
    congruence. }
  pose proof Hqn as Hmax. apply mapM_Return in Hmax.
  assert (Hlen : length qn = length (next_states b)).
  { rewrite <- (Forall2_length _ _ _ Hmax). symmetry. exact (Forall2_length _ _ _ Hall). }
  eexists. split; [|split].
  { rewrite learn_targets. fold target. unfold compute_Q_targets_next, network_call.
    rewrite Houts, Hqn.
    rewrite compute_Q_targets_same_length by lia. reflexivity. }
  { rewrite !length_zip_with. unfold tensor_scale, tensor_rsub. rewrite !length_map. lia. }
  intros i r s' d Hri Hsi Hdi.
  destruct (Forall2_lookup_l _ _ _ _ _ Hall Hsi) as (out & Hout & Hfs).
  destruct (Forall2_lookup_l _ _ _ _ _ Hmax Hout) as (m & Hm & Hrm).
  exists out, m. split; [done|]. split; [done|].
  split; [by apply row_max_is_max|]. split; [by apply row_max_NaN|].
  assert (Hqi : zip_with fadd (rewards b)
                  (zip_with fmul (tensor_scale gamma qn) (tensor_rsub 1%F (dones b))) !! i
                = Some (r + gamma * m * (1 - d))%F).
  { rewrite lookup_zip_with, Hri. simpl.
    unfold tensor_scale, tensor_rsub.
    rewrite lookup_zip_with, !list_lookup_fmap, Hm, Hdi. done. }
  split; [done|]. split.
  - intros -> Hfin. rewrite Hqi, fsub_1_1, fmul_0_r_finite, fadd_0_r; done.
  - intros -> Hfin. rewrite Hqi, fsub_1_1, fmul_0_r_not_finite, fadd_NaN_r; done.
Qed.

End BellmanTarget.

(** ** Sampling from the replay buffer *)

Section Sampling.
Context `{Random}.

(** Taking [pool[j]] and moving the last element into its place leaves the
    elements of the pool, up to order. *)
Lemma pool_step_perm {A} (pool : list A) (j : nat) (x y : A) :
  pool !! j = Some x -> last pool = Some y ->
  x :: take (length pool - 1) (<[j := y]> pool) ≡ₚ pool.
Proof.
  intros Hj Hlast. apply last_Some in Hlast as [init ->].
  rewrite length_app. simpl.
  replace (length init + 1 - 1) with (length init) by lia.
  destruct (decide (j < length init)) as [Hlt|Hge].
  - rewrite lookup_app_l in Hj by done.
    rewrite insert_app_l by done.
    rewrite take_app_length' by (by rewrite length_insert).
    rewrite insert_take_drop by done.
    rewrite <- (take_drop_middle init j x Hj) at 3.
    rewrite <- !app_assoc. simpl.
    rewrite <- !Permutation_middle. by rewrite app_nil_r.
  - assert (j = length init) as ->.
    { apply lookup_lt_Some in Hj. rewrite length_app in Hj. simpl in Hj. lia. }
    rewrite list_lookup_middle in Hj by done. simplify_eq.
    rewrite insert_app_r_alt, Nat.sub_diag by done. simpl.
    rewrite take_app_length. apply Permutation_cons_append.
Qed.

Lemma sample_pool_submseteq {A} (k : nat) (pool : list A) (g : rng) :
  (sample_pool k pool g).1 ⊆+ pool.
Proof.
  revert pool g. induction k as [|k IH]; intros pool g; simpl.
  - apply submseteq_nil_l.
  - destruct (randbelow (length pool) g) as [j g1].
    destruct (pool !! j) as [x|] eqn:Hj; [|apply submseteq_nil_l].
    destruct (last pool) as [y|] eqn:Hl; [|apply submseteq_nil_l].
    specialize (IH (take (length pool - 1) (<[j:=y]> pool)) g1).
    destruct (sample_pool k _ g1) as [rest g2]. simpl in *.
    transitivity (x :: take (length pool - 1) (<[j:=y]> pool)).
    + by apply submseteq_skip.
    + by rewrite (pool_step_perm pool j x y Hj Hl).
Qed.

Lemma sample_pool_length {A} (k : nat) (pool : list A) (g : rng) :
  k <= length pool -> length (sample_pool k pool g).1 = k.
Proof.
  revert pool g. induction k as [|k IH]; intros pool g Hk; simpl; [done|].
  pose proof (randbelow_range (length pool) g ltac:(lia)) as Hr.
  destruct (randbelow (length pool) g) as [j g1]. simpl in Hr.
  destruct (lookup_lt_is_Some_2 pool j Hr) as [x Hx]. rewrite Hx.
  destruct (last pool) as [y|] eqn:Hl.
  - specialize (IH (take (length pool - 1) (<[j:=y]> pool)) g1).
    destruct (sample_pool k _ g1) as [rest g2]. simpl in *.
    f_equal. apply IH. rewrite length_take, length_insert. lia.
  - apply last_None in Hl. subst. simpl in Hk. lia.
Qed.

(** The selection commutes with a map over the pool. *)
Lemma sample_pool_fmap {A B} (f : A -> B) (k : nat) (pool : list A) (g : rng) :
  sample_pool k (f <$> pool) g =
    (f <$> (sample_pool k pool g).1, (sample_pool k pool g).2).
Proof.
  revert pool g. induction k as [|k IH]; intros pool g; simpl; [done|].
  rewrite length_fmap.
  destruct (randbelow (length pool) g) as [j g1].
  rewrite list_lookup_fmap, fmap_last.
  destruct (pool !! j) as [x|]; simpl; [|done].
  destruct (last pool) as [y|]; simpl; [|done].
  rewrite <- list_fmap_insert, <- fmap_take, IH.
  by destruct (sample_pool k _ g1).
Qed.

(** [random.sample] returns the elements at [k] distinct positions. *)
Lemma random_sample_distinct {A} (population : list A) (k : nat) (g : rng) :
  k <= length population ->
  exists r g' idx,
    random_sample population k g = (Return r, g') /\
    NoDup idx /\ length idx = k /\ length r = k /\
    Forall2 (fun i x => population !! i = Some x) idx r.
Proof.
  intros Hk. unfold random_sample. rewrite decide_True by done.
  set (tagged := zip (seq 0 (length population)) population).
  assert (Hsnd : tagged.*2 = population)
    by (apply snd_zip; rewrite length_seq; lia).
  assert (Hfst : tagged.*1 = seq 0 (length population))
    by (apply fst_zip; rewrite length_seq; lia).
  pose proof (sample_pool_fmap snd k tagged g) as Hnat. rewrite Hsnd in Hnat.
  pose proof (sample_pool_submseteq k tagged g) as Hsub.
  pose proof (sample_pool_length k tagged g) as Hlen.
  rewrite Hnat.
  destruct (sample_pool k tagged g) as [picked g']. simpl in *.
  exists (picked.*2), g', (picked.*1).
  split; [done|]. split; [|split; [|split]].
  - assert (Hsub1 : picked.*1 ⊆+ tagged.*1) by (by apply fmap_submseteq).
    apply submseteq_Permutation in Hsub1 as [rest Hperm].
    pose proof (NoDup_seq 0 (length population)) as Hnd.
    rewrite <- Hfst, Hperm in Hnd. by apply NoDup_app in Hnd as [? _].
  - rewrite length_fmap. apply Hlen.
    unfold tagged. rewrite length_zip, length_seq. lia.
  - rewrite length_fmap. apply Hlen.
    unfold tagged. rewrite length_zip, length_seq. lia.
  - apply Forall2_fmap, Forall_Forall2_diag, Forall_forall.
    intros [i x] Hin. simpl.
    assert (Hin' : (i, x) ∈ tagged) by (eapply elem_of_submseteq; eauto).
    apply list_elem_of_lookup in Hin' as [p Hp].
    unfold tagged in Hp. apply lookup_zip_with_Some in Hp as (i' & x' & Heq & Hi & Hx).
    simplify_eq. apply lookup_seq in Hi as [-> _]. done.
Qed.

End Sampling.

Section SampleBatch.
Context `{Random}.

Lemma vstack_uniform (rows : list (list fval)) (n : nat) :
  rows <> [] -> Forall (fun r => length r = n) rows -> vstack rows = Return rows.
Proof.
  destruct rows as [|r rs]; [done|]. intros _ Hall. simpl.
  apply Forall_cons in Hall as [Hr Hrs].
  rewrite decide_True; [done|].
  eapply Forall_impl; [exact Hrs|]. simpl. congruence.
Qed.

Lemma vstack_scalars_nonempty {A} (xs : list A) :
  xs <> [] -> vstack_scalars xs = Return xs.
Proof. by destruct xs. Qed.

Lemma to_long_int64 (xs : list Z) : Forall fits_int64 xs -> to_long xs = Return xs.
Proof. intros Hall. unfold to_long. by rewrite decide_True. Qed.

(** The batch built from well-formed records. *)
Lemma build_batch_well_formed (exps : list Experience) (n : nat) :
  exps <> [] -> Forall (well_formed n) exps ->
  build_batch exps =
    Return (mkBatch (state <$> exps) (action <$> exps) (reward <$> exps)
                    (next_state <$> exps)
                    ((fun e => if done e then 1%F else 0%F) <$> exps)).
Proof.
  intros Hne Hws. unfold build_batch.
  rewrite (vstack_uniform (map state exps) n).
  2: { by destruct exps. }
  2: { apply Forall_fmap. eapply Forall_impl; [exact Hws|]. by intros e (? & ? & ?). }
  rewrite (vstack_uniform (map next_state exps) n).
  2: { by destruct exps. }
  2: { apply Forall_fmap. eapply Forall_impl; [exact Hws|]. by intros e (? & ? & ?). }
  rewrite !vstack_scalars_nonempty by (by destruct exps).
  rewrite to_long_int64.
  2: { apply Forall_fmap. eapply Forall_impl; [exact Hws|]. by intros e (? & ? & ?). }
  do 2 f_equal. rewrite <- list_fmap_compose. done.
Qed.

Lemma sample_unfold_Return (rb : ReplayBuffer) (g g' : rng) (exps : list Experience) (n : nat) :
  random_sample (items (memory rb)) (batch_size rb) g = (Return exps, g') ->
  exps <> [] -> Forall (well_formed n) exps ->
  sample rb g =
    (Return (mkBatch (state <$> exps) (action <$> exps) (reward <$> exps)
                     (next_state <$> exps)
                     ((fun e => if done e then 1%F else 0%F) <$> exps)),
     rb, g').
Proof.
  intros Hrs Hne Hws. unfold sample. rewrite Hrs.
  by rewrite (build_batch_well_formed exps n).
Qed.

(** C5, as the code has it. For a Replay Store of well-formed records
    (states and next states of one length, every action an [int64]) whose
    size is at least the batch size [B >= 1], [sample] returns five arrays of
    [B] entries each, taken from [B] distinct positions of the store: entry
    [k] of every array comes from the record at position [idx[k]]. The
    store is the same after the call. With a batch size of 0, [sample]
    raises ValueError on every store. *)
Theorem sample_batch (rb : ReplayBuffer) (g : rng) (n : nat) :
  (0 < batch_size rb -> batch_size rb <= len rb ->
   Forall (well_formed n) (items (memory rb)) ->
   exists b g' idx,
     sample rb g = (Return b, rb, g') /\
     NoDup idx /\ length idx = batch_size rb /\
     length (states b) = batch_size rb /\ length (actions b) = batch_size rb /\
     length (rewards b) = batch_size rb /\ length (next_states b) = batch_size rb /\
     length (dones b) = batch_size rb /\
     forall k i, idx !! k = Some i ->
       exists e, items (memory rb) !! i = Some e /\
         states b !! k = Some (state e) /\ actions b !! k = Some (action e) /\
         rewards b !! k = Some (reward e) /\ next_states b !! k = Some (next_state e) /\
         dones b !! k = Some (if done e then 1%F else 0%F)) /\
  (batch_size rb = 0 -> sample rb g = (Raise ValueError, rb, g)).
Proof.
  split.
  - intros Hpos Hle Hws.
    destruct (random_sample_distinct (items (memory rb)) (batch_size rb) g Hle)
      as (exps & g' & idx & Hrs & Hnd & Hli & Hlr & Hall).
    assert (Hne : exps <> []) by (intros ->; simpl in Hlr; lia).
    assert (Hws' : Forall (well_formed n) exps).
    { apply Forall_forall. intros e Hin.
      apply list_elem_of_lookup in Hin as [k Hk].
      destruct (Forall2_lookup_r _ _ _ _ _ Hall Hk) as (i & _ & Hi).
      eapply (proj1 (Forall_lookup _ _) Hws); eauto. }
    eexists _, g', idx. split; [by eapply sample_unfold_Return|].
    cbn [states actions rewards next_states dones].
    rewrite !length_fmap, Hlr.
    repeat (split; [done|]).
    intros k i Hk.
    destruct (Forall2_lookup_l _ _ _ _ _ Hall Hk) as (e & He & Hi).
    exists e. rewrite !list_lookup_fmap, He. done.
  - intros Hz. unfold sample, random_sample. rewrite Hz.
    rewrite decide_True by lia. done.
Qed.

(** C6. With fewer records than the batch size, [sample] raises ValueError
    (from [random.sample]); the store and the generator are left as they
    were. *)
Theorem sample_insufficient (rb : ReplayBuffer) (g : rng) :
  len rb < batch_size rb -> sample rb g = (Raise ValueError, rb, g).
Proof.
  intros Hlt. unfold sample, random_sample, len in *.
  rewrite decide_False by lia. done.
Qed.

End SampleBatch.

(** ** The learning trigger of [Agent.step] *)

Section Cadence.
Context `{Random} `{Estimator} `{Optimizer}.

Lemma sample_returns (rb : ReplayBuffer) (g : rng) (n : nat) :
  0 < batch_size rb -> batch_size rb <= len rb ->
  Forall (well_formed n) (items (memory rb)) ->
  exists b g', sample rb g = (Return b, rb, g').
Proof.
  intros Hpos Hle Hws.
  destruct (random_sample_distinct (items (memory rb)) (batch_size rb) g Hle)
    as (exps & g' & idx & Hrs & _ & _ & Hlr & Hall).
  eexists _, g'. eapply (sample_unfold_Return _ _ _ _ n); [done| |].
  - intros ->. simpl in Hlr. lia.
  - apply Forall_forall. intros e Hin.
    apply list_elem_of_lookup in Hin as [k Hk].
    destruct (Forall2_lookup_r _ _ _ _ _ Hall Hk) as (i & _ & Hi).
    eapply (proj1 (Forall_lookup _ _) Hws); eauto.
Qed.

Lemma count_calls_app (c : call) (a : Agent) (g : rng) (h l : list call) :
  count_calls c (mkWorld a g (h ++ l)) =
    length (filter (fun x => x = c) h) + length (filter (fun x => x = c) l).
Proof. unfold count_calls. cbn [history]. by rewrite filter_app, length_app. Qed.

(** What [learn] leaves alone, and what it adds to the history. *)
Lemma learn_frame (b : Batch) (gamma : fval) (w : World) :
  let w' := (learn b gamma w).2 in
  state_size (agent w') = state_size (agent w) /\
  action_size (agent w') = action_size (agent w) /\
  agent_memory (agent w') = agent_memory (agent w) /\
  t_step (agent w') = t_step (agent w) /\
  gen w' = gen w /\
  count_calls CallLearn w' = count_calls CallLearn w + 1 /\
  count_calls CallSample w' = count_calls CallSample w /\
  count_calls CallSoftUpdate w' <= count_calls CallSoftUpdate w + 1.
Proof.
  rewrite learn_unfold.
  destruct (learn_forward w b gamma) as [qt|e].
  - unfold after_gradient_step. destruct (minimize _ _ _) as [o th].
    cbn [set_optimizer set_qnetwork_local qnetwork_target qnetwork_local parameters training].
    destruct (soft_update_params _ _ _) as [out th'].
    cbn [snd agent gen set_qnetwork_target state_size action_size agent_memory t_step].
    rewrite !count_calls_app. unfold count_calls. simpl. repeat split; lia.
  - cbn [snd agent gen]. rewrite !count_calls_app. unfold count_calls. simpl.
    repeat split; lia.
Qed.

(** [step] always stores the record and advances the counter, whatever
    happens in the learning update. *)
Lemma step_frame (s : list fval) (a : Z) (r : fval) (s' : list fval) (d : bool) (w : World) :
  let w' := (step s a r s' d w).2 in
  state_size (agent w') = state_size (agent w) /\
  action_size (agent w') = action_size (agent w) /\
  agent_memory (agent w') = add (agent_memory (agent w)) s a r s' d /\
  t_step (agent w') = (t_step (agent w) + 1) mod UPDATE_EVERY.
Proof.
  rewrite step_unfold. case_decide; [|done].
  cbn zeta. destruct (sample _ _).1.1 as [b|e]; [|done].
  match goal with |- context [learn b GAMMA ?w2] =>
    destruct (learn_frame b GAMMA w2) as (Hs & Ha & Hm & Ht & _) end.
  cbn zeta in *. rewrite Hs, Ha, Hm, Ht. done.
Qed.

(** [step] samples exactly when the counter wraps to 0 and the buffer holds
    more than [BATCH_SIZE] records. *)
Lemma step_sample_count (s : list fval) (a : Z) (r : fval) (s' : list fval) (d : bool)
    (w : World) :
  count_calls CallSample (step s a r s' d w).2 =
    count_calls CallSample w + (if decide (triggers w s a r s' d) then 1 else 0).
Proof.
  rewrite step_unfold. case_decide.
  - cbn zeta. destruct (sample _ _).1.1 as [b|e].
    + match goal with |- context [learn b GAMMA ?w2] =>
        destruct (learn_frame b GAMMA w2) as (_ & _ & _ & _ & _ & _ & Hc & _) end.
      cbn zeta in Hc. rewrite Hc, count_calls_app. unfold count_calls. simpl. lia.
    + cbn [snd]. rewrite count_calls_app. unfold count_calls. simpl. lia.
  - cbn [snd]. rewrite count_calls_app. unfold count_calls. simpl. lia.
Qed.

(** On every agent and every input, [step] invokes the learning update at
    most once, and only when it samples. *)
Lemma step_learn_bounds (s : list fval) (a : Z) (r : fval) (s' : list fval) (d : bool)
    (w : World) :
  count_calls CallLearn w <= count_calls CallLearn (step s a r s' d w).2 /\
  count_calls CallLearn (step s a r s' d w).2 <=
    count_calls CallLearn w + (if decide (triggers w s a r s' d) then 1 else 0).
Proof.
  rewrite step_unfold. case_decide.
  - cbn zeta. destruct (sample _ _).1.1 as [b|e].
    + match goal with |- context [learn b GAMMA ?w2] =>
        destruct (learn_frame b GAMMA w2) as (_ & _ & _ & _ & _ & Hc & _) end.
      cbn zeta in Hc. rewrite Hc, count_calls_app. unfold count_calls. simpl. lia.
    + cbn [snd]. rewrite count_calls_app. unfold count_calls. simpl. lia.
  - cbn [snd]. rewrite count_calls_app. unfold count_calls. simpl. lia.
Qed.

Lemma add_well_formed (rb : ReplayBuffer) (n : nat) s a r s' d :
  Forall (well_formed n) (items (memory rb)) ->
  well_formed n (mkExperience s a r s' d) ->
  Forall (well_formed n) (items (memory (add rb s a r s' d))).
Proof.
  intros Hall He. unfold add, deque_append. cbn [memory items].
  assert (Forall (well_formed n) (items (memory rb) ++ [mkExperience s a r s' d]))
    by (apply Forall_app; split; [done | by constructor]).
  case_decide; [|done]. rewrite tail_drop. by apply Forall_drop.
Qed.

(** On an agent whose buffer holds well-formed records the learning update
    is invoked exactly when [step] samples. *)
Lemma step_learn_count (s : list fval) (a : Z) (r : fval) (s' : list fval) (d : bool)
    (w : World) :
  agent_ok (agent w) ->
  well_formed (state_size (agent w)) (mkExperience s a r s' d) ->
  count_calls CallLearn (step s a r s' d w).2 =
    count_calls CallLearn w + (if decide (triggers w s a r s' d) then 1 else 0).
Proof.
  intros [Hbs Hws] He. rewrite step_unfold. case_decide as Htr.
  - destruct Htr as [_ Hlen].
    destruct (sample_returns (agent_memory (ingested w s a r s' d)) (gen w)
                (state_size (agent w))) as (b & g' & Hsample).
    + cbn. rewrite Hbs. unfold BATCH_SIZE. lia.
    + cbn [ingested set_t_step set_memory agent_memory]. cbn in Hlen |- *.
      rewrite Hbs. lia.
    + by apply add_well_formed.
    + rewrite Hsample. cbn [fst snd].
      match goal with |- context [learn b GAMMA ?w2] =>
        destruct (learn_frame b GAMMA w2) as (_ & _ & _ & _ & _ & Hc & _) end.
      cbn zeta in Hc. rewrite Hc, count_calls_app. unfold count_calls. simpl. lia.
  - cbn [snd]. rewrite count_calls_app. unfold count_calls. simpl. lia.
Qed.

Lemma step_agent_ok (s : list fval) (a : Z) (r : fval) (s' : list fval) (d : bool) (w : World) :
  agent_ok (agent w) ->
  well_formed (state_size (agent w)) (mkExperience s a r s' d) ->
  agent_ok (agent (step s a r s' d w).2).
Proof.
  intros [Hbs Hws] He.
  destruct (step_frame s a r s' d w) as (Hs & _ & Hm & _). cbn zeta in *.
  unfold agent_ok. rewrite Hs, Hm. split; [done|]. by apply add_well_formed.
Qed.

Lemma cadence_arith (n : nat) :
  (n + 1) mod 4 = (n mod 4 + 1) mod 4 /\
  (n + 1) / 4 = n / 4 + (if decide ((n + 1) mod 4 = 0) then 1 else 0).
Proof.
  pose proof (Nat.div_mod_eq n 4) as E1.
  pose proof (Nat.mod_upper_bound n 4 ltac:(lia)) as B1.
  pose proof (Nat.div_mod_eq (n + 1) 4) as E2.
  pose proof (Nat.mod_upper_bound (n + 1) 4 ltac:(lia)) as B2.
  pose proof (Nat.div_mod_eq (n mod 4 + 1) 4) as E3.
  pose proof (Nat.mod_upper_bound (n mod 4 + 1) 4 ltac:(lia)) as B3.
  case_decide; lia.
Qed.

Lemma BATCH_SIZE_lt_BUFFER_SIZE : BATCH_SIZE < BUFFER_SIZE.
Proof. unfold BATCH_SIZE, BUFFER_SIZE. lia. Qed.

Lemma run_steps_snoc (es : list Experience) (e : Experience) (w : World) :
  run_steps (es ++ [e]) w = (step_record e (run_steps es w)).2.
Proof. unfold run_steps. by rewrite foldl_app. Qed.

(** The counter and the buffer of an agent after [n] calls of [step] from
    its construction, whatever the transitions were. *)
Lemma run_steps_state (ss acts : nat) (seed : Z) (es : list Experience) :
  let w := run_steps es (Agent_init ss acts seed) in
  state_size (agent w) = ss /\
  t_step (agent w) = length es mod UPDATE_EVERY /\
  agent_memory (agent w) = add_all (ReplayBuffer_init acts BUFFER_SIZE BATCH_SIZE) es.
Proof.
  induction es as [|e es IH] using rev_ind; cbn zeta.
  - done.
  - destruct IH as (Hss & Ht & Hmem). cbn zeta in *.
    rewrite run_steps_snoc. unfold step_record.
    set (w := run_steps es (Agent_init ss acts seed)) in *.
    destruct (step_frame (state e) (action e) (reward e) (next_state e) (done e) w)
      as (Hs' & _ & Hm' & Ht'). cbn zeta in *.
    rewrite length_app. cbn [length].
    destruct (cadence_arith (length es)) as [Hmod _].
    split; [congruence|]. split.
    + rewrite Ht', Ht. unfold UPDATE_EVERY. by rewrite Hmod.
    + by rewrite Hm', add_all_snoc, Hmem.
Qed.

Lemma run_steps_len (ss acts : nat) (seed : Z) (es : list Experience) :
  len (agent_memory (agent (run_steps es (Agent_init ss acts seed)))) =
    min BUFFER_SIZE (length es).
Proof.
  destruct (run_steps_state ss acts seed es) as (_ & _ & Hmem). cbn zeta in Hmem.
  rewrite Hmem. unfold len.
  destruct (add_all_memory acts BUFFER_SIZE BATCH_SIZE es) as [_ ->].
  by rewrite most_recent_length.
Qed.

(** The call number [n + 1] of [step] since the agent's construction
    samples exactly when [n + 1] is a multiple of [UPDATE_EVERY] above
    [BATCH_SIZE]. *)
Lemma run_steps_triggers (ss acts : nat) (seed : Z) (es : list Experience) (e : Experience) :
  triggers (run_steps es (Agent_init ss acts seed))
           (state e) (action e) (reward e) (next_state e) (done e) <->
  (length es + 1) mod UPDATE_EVERY = 0 /\ BATCH_SIZE < length es + 1.
Proof.
  destruct (run_steps_state ss acts seed es) as (_ & Ht & Hmem). cbn zeta in *.
  unfold triggers. rewrite Ht.
  destruct (cadence_arith (length es)) as [Hmod _].
  unfold UPDATE_EVERY. rewrite <- Hmod.
  assert (Hlen : len (add (agent_memory (agent (run_steps es (Agent_init ss acts seed))))
                        (state e) (action e) (reward e) (next_state e) (done e))
                 = min BUFFER_SIZE (length es + 1)).
  { rewrite Hmem. change (add ?rb (state e) (action e) (reward e) (next_state e) (done e))
      with (add_record rb e).
    rewrite <- add_all_snoc. unfold len.
    destruct (add_all_memory acts BUFFER_SIZE BATCH_SIZE (es ++ [e])) as [_ ->].
    by rewrite most_recent_length, length_app. }
  rewrite Hlen. pose proof BATCH_SIZE_lt_BUFFER_SIZE. lia.
Qed.

Lemma run_steps_trigger_count (ss acts : nat) (seed : Z) (es : list Experience)
    (e : Experience) :
  (if decide (triggers (run_steps es (Agent_init ss acts seed))
                (state e) (action e) (reward e) (next_state e) (done e))
   then 1 else 0) =
  (if decide ((length es + 1) mod UPDATE_EVERY = 0 /\ BATCH_SIZE < length es + 1)
   then 1 else 0).
Proof.
  pose proof (run_steps_triggers ss acts seed es e) as Htr.
  repeat case_decide; try done; tauto.
Qed.

(** After [n] well-formed transitions from the agent's construction the
    buffer holds well-formed records, and the learning update ran once for
    every multiple of [UPDATE_EVERY] above [BATCH_SIZE]. *)
Lemma run_steps_invariant (ss acts : nat) (seed : Z) (es : list Experience) :
  Forall (well_formed ss) es ->
  let w := run_steps es (Agent_init ss acts seed) in
  agent_ok (agent w) /\
  count_calls CallLearn w = length es / UPDATE_EVERY - BATCH_SIZE / UPDATE_EVERY.
Proof.
  induction es as [|e es IH] using rev_ind; intros Hall; cbn zeta.
  - repeat split. constructor.
  - apply Forall_app in Hall as [Hes He]. rewrite Forall_singleton in He.
    destruct (IH Hes) as (Hok & Hcount); clear IH. cbn zeta in *.
    destruct (run_steps_state ss acts seed es) as (Hss & _ & _). cbn zeta in Hss.
    pose proof (run_steps_trigger_count ss acts seed es e) as Htr.
    rewrite run_steps_snoc. unfold step_record.
    set (w := run_steps es (Agent_init ss acts seed)) in *.
    assert (He' : well_formed (state_size (agent w))
                    (mkExperience (state e) (action e) (reward e) (next_state e) (done e)))
      by (rewrite Hss; destruct e; exact He).
    split; [by apply step_agent_ok|].
    rewrite (step_learn_count _ _ _ _ _ w Hok He'), Hcount, Htr.
    rewrite length_app. cbn [length].
    destruct (cadence_arith (length es)) as [_ Hdiv].
    unfold UPDATE_EVERY, BATCH_SIZE in *. change (64 / 4) with 16. rewrite Hdiv.
    pose proof (Nat.div_mod_eq (length es) 4) as E1.
    pose proof (Nat.mod_upper_bound (length es) 4 ltac:(lia)) as B1.
    pose proof (Nat.div_mod_eq (length es + 1) 4) as E2.
    clear Htr. repeat case_decide; lia.
Qed.

(** Whatever the transitions, the learning update ran at most once for every
    multiple of [UPDATE_EVERY] above [BATCH_SIZE]. *)
Lemma run_steps_learn_upper (ss acts : nat) (seed : Z) (es : list Experience) :
  count_calls CallLearn (run_steps es (Agent_init ss acts seed))
    <= length es / UPDATE_EVERY - BATCH_SIZE / UPDATE_EVERY.
Proof.
  induction es as [|e es IH] using rev_ind.
  - unfold count_calls. simpl. lia.
  - pose proof (run_steps_trigger_count ss acts seed es e) as Htr.
    rewrite run_steps_snoc. unfold step_record.
    set (w := run_steps es (Agent_init ss acts seed)) in *.
    destruct (step_learn_bounds (state e) (action e) (reward e) (next_state e) (done e) w)
      as [_ Hup].
    rewrite Htr in Hup.
    rewrite length_app. cbn [length].
    destruct (cadence_arith (length es)) as [_ Hdiv].
    unfold UPDATE_EVERY, BATCH_SIZE in *. change (64 / 4) with 16 in *. rewrite Hdiv.
    pose proof (Nat.div_mod_eq (length es) 4) as E1.
    pose proof (Nat.mod_upper_bound (length es) 4 ltac:(lia)) as B1.
    pose proof (Nat.div_mod_eq (length es + 1) 4) as E2.
    clear Htr. repeat case_decide; lia.
Qed.

(** Whatever the transitions, a run extended by [k] calls invokes the
    learning update at most once for every multiple of [UPDATE_EVERY] among
    the numbers of the new calls. *)
Lemma run_steps_learn_window (ss acts : nat) (seed : Z) (es es' : list Experience) :
  count_calls CallLearn (run_steps (es ++ es') (Agent_init ss acts seed))
    <= count_calls CallLearn (run_steps es (Agent_init ss acts seed))
       + ((length es + length es') / UPDATE_EVERY - length es / UPDATE_EVERY).
Proof.
  induction es' as [|e es' IH] using rev_ind.
  - rewrite app_nil_r. lia.
  - rewrite app_assoc.
    pose proof (run_steps_trigger_count ss acts seed (es ++ es') e) as Htr.
    rewrite run_steps_snoc. unfold step_record.
    set (w := run_steps (es ++ es') (Agent_init ss acts seed)) in *.
    destruct (step_learn_bounds (state e) (action e) (reward e) (next_state e) (done e) w)
      as [_ Hup].
    rewrite Htr in Hup.
    rewrite !length_app in *. cbn [length].
    destruct (cadence_arith (length es + length es')) as [_ Hdiv].
    unfold UPDATE_EVERY in *.
    replace (length es + (length es' + 1)) with (length es + length es' + 1) by lia.
    rewrite Hdiv.
    pose proof (Nat.div_mod_eq (length es) 4) as E1.
    pose proof (Nat.mod_upper_bound (length es) 4 ltac:(lia)) as B1.
    pose proof (Nat.div_mod_eq (length es + length es') 4) as E2.
    pose proof (Nat.mod_upper_bound (length es + length es') 4 ltac:(lia)) as B2.
    clear Htr. repeat case_decide; lia.
Qed.

(** C3, as the code has it. On every agent and every input, a call of
    [step] samples exactly when the counter, incremented modulo
    [UPDATE_EVERY], is 0 and the buffer then holds more than [BATCH_SIZE]
    records, and it invokes the learning update at most once and only when
    it samples; on an agent whose buffer samples [BATCH_SIZE] records and
    holds well-formed records, a call with a well-formed transition invokes
    the learning update exactly when it samples. After [n] calls from the
    agent's construction the counter is [n mod UPDATE_EVERY] and the buffer
    holds [min BUFFER_SIZE n] records, so call [n + 1] samples exactly when
    [n + 1] is a multiple of [UPDATE_EVERY] above [BATCH_SIZE]; after [n]
    well-formed transitions the learning update was invoked exactly [n /
    UPDATE_EVERY - BATCH_SIZE / UPDATE_EVERY] times; and whatever the
    transitions, it is invoked at most once in any [UPDATE_EVERY]
    consecutive calls and never within the first [BATCH_SIZE] calls. *)
Theorem learning_cadence :
  (forall (w : World) s a r s' d,
     count_calls CallSample (step s a r s' d w).2 =
       count_calls CallSample w + (if decide (triggers w s a r s' d) then 1 else 0) /\
     count_calls CallLearn w <= count_calls CallLearn (step s a r s' d w).2 /\
     count_calls CallLearn (step s a r s' d w).2 <=
       count_calls CallLearn w + (if decide (triggers w s a r s' d) then 1 else 0)) /\
  (forall (w : World) s a r s' d,
     agent_ok (agent w) ->
     well_formed (state_size (agent w)) (mkExperience s a r s' d) ->
     count_calls CallLearn (step s a r s' d w).2 =
       count_calls CallLearn w + (if decide (triggers w s a r s' d) then 1 else 0)) /\
  (forall (ss acts : nat) (seed : Z) (es : list Experience) (e : Experience),
     let w := run_steps es (Agent_init ss acts seed) in
     t_step (agent w) = length es mod UPDATE_EVERY /\
     len (agent_memory (agent w)) = min BUFFER_SIZE (length es) /\
     (triggers w (state e) (action e) (reward e) (next_state e) (done e) <->
        (length es + 1) mod UPDATE_EVERY = 0 /\ BATCH_SIZE < length es + 1)) /\
  (forall (ss acts : nat) (seed : Z) (es : list Experience),
     Forall (well_formed ss) es ->
     count_calls CallLearn (run_steps es (Agent_init ss acts seed)) =
       length es / UPDATE_EVERY - BATCH_SIZE / UPDATE_EVERY) /\
  (forall (ss acts : nat) (seed : Z) (es es' : list Experience),
     length es' <= UPDATE_EVERY ->
     count_calls CallLearn (run_steps (es ++ es') (Agent_init ss acts seed)) <=
       count_calls CallLearn (run_steps es (Agent_init ss acts seed)) + 1) /\
  (forall (ss acts : nat) (seed : Z) (es : list Experience),
     length es <= BATCH_SIZE ->
     count_calls CallLearn (run_steps es (Agent_init ss acts seed)) = 0).
Proof.
  split; [|split; [|split; [|split; [|split]]]].
  - intros. split; [apply step_sample_count | apply step_learn_bounds].
  - intros w s a r s' d Hok He. by apply step_learn_count.
  - intros ss acts seed es e. cbn zeta.
    destruct (run_steps_state ss acts seed es) as (_ & Ht & _). cbn zeta in Ht.
    split; [done|]. split; [apply run_steps_len | apply run_steps_triggers].
  - intros ss acts seed es Hall.
    by destruct (run_steps_invariant ss acts seed es Hall) as [_ Hc].
  - intros ss acts seed es es' Hlen.
    pose proof (run_steps_learn_window ss acts seed es es') as Hw.
    unfold UPDATE_EVERY in *.
    pose proof (Nat.div_mod_eq (length es) 4) as E1.
    pose proof (Nat.mod_upper_bound (length es) 4 ltac:(lia)) as B1.
    pose proof (Nat.div_mod_eq (length es + length es') 4) as E2.
    pose proof (Nat.mod_upper_bound (length es + length es') 4 ltac:(lia)) as B2.
    lia.
  - intros ss acts seed es Hlen.
    pose proof (run_steps_learn_upper ss acts seed es) as Hu.
    unfold UPDATE_EVERY, BATCH_SIZE in *. change (64 / 4) with 16 in Hu.
    pose proof (Nat.div_mod_eq (length es) 4) as E1.
    pose proof (Nat.mod_upper_bound (length es) 4 ltac:(lia)) as B1.
    lia.
Qed.

End Cadence.

(** ** The soft target update *)

Section SoftUpdate.
Context `{Random} `{Estimator} `{Optimizer}.

Lemma soft_update_tensor_same_length (t l : tensor) (tau : fval) :
  length t = length l ->
  soft_update_tensor t l tau =
    Return (zip_with fadd (tensor_scale tau l) (tensor_scale (1 - tau)%F t)).
Proof.
  intros Hlen. unfold soft_update_tensor, tensor_add, tensor_scale.
  rewrite tensor_map2_zip_with by (rewrite !length_map; done).
  rewrite decide_True; [done|].
  rewrite length_zip_with, !length_map. lia.
Qed.

Lemma soft_update_params_same_shape (target local : list (list fval)) (tau : fval) :
  Forall2 (fun t l => length t = length l) target local ->
  soft_update_params target local tau =
    (Return tt,
     zip_with (fun t l => zip_with fadd (tensor_scale tau l) (tensor_scale (1 - tau)%F t))
              target local).
Proof.
  induction 1 as [|t l ts ls Hlen _ IH]; simpl; [done|].
  rewrite soft_update_tensor_same_length by done. by rewrite IH.
Qed.

(** C4. For parameter sequences of matching shapes, [soft_update] replaces
    every target entry [pt] by [tau * pl + (1 - tau) * pt], [pl] being the
    online entry at the same position. [learn] either raises in its forward
    part, before any parameter changes, or performs one optimizer step and
    then exactly one soft update, with [TAU], of the target parameters
    towards the online parameters that the optimizer step produced. A call
    of [step] that does not trigger learning leaves the target network as
    it was. *)
Theorem soft_update_rule :
  (forall (target local : list (list fval)) (tau : fval),
     Forall2 (fun t l => length t = length l) target local ->
     exists th,
       soft_update_params target local tau = (Return tt, th) /\
       length th = length target /\
       forall i j t l pt pl,
         target !! i = Some t -> local !! i = Some l ->
         t !! j = Some pt -> l !! j = Some pl ->
         exists row, th !! i = Some row /\ row !! j = Some (tau * pl + (1 - tau) * pt)%F) /\
  (forall (b : Batch) (gamma : fval) (w : World),
     match learn_forward w b gamma with
     | Raise e =>
         learn b gamma w = (Raise e, mkWorld (agent w) (gen w) (history w ++ [CallLearn]))
     | Return Q_targets =>
         let a1 := after_gradient_step w b Q_targets in
         let w' := (learn b gamma w).2 in
         qnetwork_target a1 = qnetwork_target (agent w) /\
         qnetwork_local (agent w') = qnetwork_local a1 /\
         soft_update_params (parameters (qnetwork_target (agent w)))
                            (parameters (qnetwork_local a1)) TAU
           = ((learn b gamma w).1, parameters (qnetwork_target (agent w'))) /\
         history w' = history w ++ [CallLearn; CallOptimizerStep; CallSoftUpdate]
     end) /\
  (forall (w : World) s a r s' d,
     ~ triggers w s a r s' d ->
     qnetwork_target (agent (step s a r s' d w).2) = qnetwork_target (agent w) /\
     history (step s a r s' d w).2 = history w ++ [CallAdd]).
Proof.
  split; [|split].
  - intros target local tau Hshape.
    rewrite (soft_update_params_same_shape target local tau Hshape).
    eexists. split; [done|]. split.
    + rewrite length_zip_with. apply Forall2_length in Hshape. lia.
    + intros i j t l pt pl Ht Hl Hpt Hpl.
      eexists. split.
      * rewrite lookup_zip_with, Ht. simpl. rewrite Hl. simpl. done.
      * unfold tensor_scale.
        rewrite lookup_zip_with, !list_lookup_fmap, Hpl, Hpt. done.
  - intros b gamma w. rewrite learn_unfold.
    destruct (learn_forward w b gamma) as [qt|e]; [|done].
    cbn zeta.
    assert (Ht : qnetwork_target (after_gradient_step w b qt) = qnetwork_target (agent w)).
    { unfold after_gradient_step. by destruct (minimize _ _ _). }
    rewrite Ht.
    destruct (soft_update_params _ _ _) as [o th]. done.
  - intros w s a r s' d Htr. rewrite step_unfold, decide_False by done. done.
Qed.

End SoftUpdate.

(** ** The epsilon-greedy policy *)

Section Policy.
Context `{Random} `{Estimator} `{Optimizer}.

Lemma act_unfold (s : list fval) (eps : Qc) (w : World) :
  act s eps w =
    let a := agent w in
    match forward false (parameters (qnetwork_local a)) s with
    | Raise e =>
        (Raise e,
         mkWorld (set_qnetwork_local a (set_training (qnetwork_local a) false))
                 (gen w) (history w))
    | Return action_values =>
        let a' := set_qnetwork_local a (set_training (qnetwork_local a) true) in
        if decide (eps < (random_random (gen w)).1)%Qc then
          (argmax action_values, mkWorld a' (random_random (gen w)).2 (history w))
        else
          ((random_choice (arange (action_size a)) (random_random (gen w)).2).1,
           mkWorld a' (random_choice (arange (action_size a)) (random_random (gen w)).2).2
                   (history w))
    end.
Proof.
  unfold act, local_eval, local_forward, local_train, bind, get_agent, put_agent, lift,
    with_gen, with_gen_outcome, set_qnetwork_local, set_training.
  simpl.
  destruct (forward false _ s) as [v|e]; [|done].
  simpl. destruct (random_random (gen w)) as [u g1]. simpl.
  case_decide; [done|].
  cbn. by destruct (random_choice _ g1).
Qed.

Lemma argmax_from_bound (xs : list fval) (i bi : nat) (b : fval) :
  bi < i -> argmax_from xs i bi b < i + length xs.
Proof.
  revert i bi b. induction xs as [|x xs IH]; intros i bi b Hlt; simpl; [lia|].
  repeat case_decide.
  - lia.
  - specialize (IH (S i) bi b ltac:(lia)). lia.
  - specialize (IH (S i) i x ltac:(lia)). lia.
Qed.

Lemma argmax_bound (xs : list fval) :
  xs <> [] -> exists n, argmax xs = Return n /\ n < length xs.
Proof.
  destruct xs as [|x xs]; [done|]. intros _. eexists. split; [done|].
  pose proof (argmax_from_bound xs 1 0 x ltac:(lia)). simpl. lia.
Qed.

Lemma random_choice_arange (n : nat) (g : rng) :
  0 < n ->
  (random_choice (arange n) g).1 = Return (randbelow n g).1 /\
  (random_choice (arange n) g).2 = (randbelow n g).2 /\
  (randbelow n g).1 < n.
Proof.
  intros Hn. pose proof (randbelow_range n g Hn) as Hr.
  unfold random_choice, arange.
  destruct (seq 0 n) as [|x l] eqn:Hseq.
  - apply (f_equal length) in Hseq. rewrite length_seq in Hseq. simpl in Hseq. lia.
  - rewrite <- Hseq, length_seq.
    destruct (randbelow n g) as [j g'] eqn:Hj. cbn [fst snd] in *.
    assert (Hlk : seq 0 n !! j = Some j) by (apply lookup_seq; lia).
    rewrite Hlk. done.
Qed.

(** C10. With at least one action and an estimator that returns
    [action_size] values for the state, [act] returns an index below
    [action_size], for every epsilon. *)
Theorem act_in_range (s : list fval) (eps : Qc) (w : World) :
  0 < action_size (agent w) ->
  (exists v, forward false (parameters (qnetwork_local (agent w))) s = Return v /\
             length v = action_size (agent w)) ->
  exists n w', act s eps w = (Return n, w') /\ n < action_size (agent w).
Proof.
  intros Hpos (v & Hv & Hlen). rewrite act_unfold. cbn zeta. rewrite Hv.
  case_decide.
  - destruct (argmax_bound v) as (n & Hn & Hlt).
    { intros ->. simpl in Hlen. lia. }
    rewrite Hn. eexists _, _. split; [done | lia].
  - destruct (random_choice_arange (action_size (agent w)) (random_random (gen w)).2 Hpos)
      as (Hc & _ & Hlt).
    rewrite Hc. eexists _, _. split; [done | lia].
Qed.

(** C8, as the code has it. [act] changes neither the parameters of the
    two networks nor the optimizer; the forward evaluation runs with the
    training flag off, whatever the flag was before the call; when the
    forward evaluation returns, the flag is on afterwards, and when it
    raises, the exception leaves [act] with the flag still off. *)
Theorem act_frame_and_mode (s : list fval) (eps : Qc) (w : World) :
  let w' := (act s eps w).2 in
  parameters (qnetwork_local (agent w')) = parameters (qnetwork_local (agent w)) /\
  qnetwork_target (agent w') = qnetwork_target (agent w) /\
  optimizer (agent w') = optimizer (agent w) /\
  (forall fl, act s eps (with_local_training w fl) = act s eps w) /\
  match forward false (parameters (qnetwork_local (agent w))) s with
  | Return _ => training (qnetwork_local (agent w')) = true
  | Raise e =>
      (act s eps w).1 = Raise e /\ training (qnetwork_local (agent w')) = false
  end.
Proof.
  cbn zeta. split; [|split; [|split; [|split]]].
  - rewrite act_unfold. cbn zeta.
    destruct (forward false _ s); [case_decide|]; done.
  - rewrite act_unfold. cbn zeta.
    destruct (forward false _ s); [case_decide|]; done.
  - rewrite act_unfold. cbn zeta.
    destruct (forward false _ s); [case_decide|]; done.
  - intros fl. rewrite !act_unfold. done.
  - rewrite act_unfold. cbn zeta.
    destruct (forward false _ s); [case_decide|]; done.
Qed.

End Policy.

(** ** What [step] and [add] accept *)

Section Ingestion.
Context `{Random} `{Estimator} `{Optimizer}.

Lemma deque_append_last {A} (d : deque A) (x : A) :
  0 < maxlen d -> last (items (deque_append d x)) = Some x.
Proof.
  intros Hpos. unfold deque_append. cbn [items].
  case_decide as Hlen; [|apply last_snoc].
  destruct (items d) as [|y l]; simpl in *; [lia|]. apply last_snoc.
Qed.

(** C9, as the code has it. [step] and [add] check neither the length of
    the states nor the range of the action: whatever the record and whether
    the call then returns or raises, the replay memory after [step] is the
    memory before it with the record, as given, added (for a buffer of
    positive capacity the record is its newest element); and a call of
    [step] that does not trigger learning returns normally. *)
Theorem step_stores_unvalidated (s : list fval) (a : Z) (r : fval) (s' : list fval) (d : bool)
    (w : World) :
  agent_memory (agent (step s a r s' d w).2) = add (agent_memory (agent w)) s a r s' d /\
  (0 < maxlen (memory (agent_memory (agent w))) ->
   last (items (memory (agent_memory (agent (step s a r s' d w).2))))
     = Some (mkExperience s a r s' d)) /\
  (~ triggers w s a r s' d -> (step s a r s' d w).1 = Return tt).
Proof.
  destruct (step_frame s a r s' d w) as (_ & _ & Hm & _). cbn zeta in Hm.
  split; [done|]. split.
  - intros Hpos. rewrite Hm. cbn [add memory]. by apply deque_append_last.
  - intros Htr. rewrite step_unfold, decide_False by done. done.
Qed.

End Ingestion.

(** * Worked examples *)

Lemma example_record_well_formed (i : Z) : well_formed 2 (example_record i).
Proof.
  split; [done|]. split; [done|]. unfold fits_int64, example_record. cbn [action].
  pose proof (Z.mod_pos_bound i 3 ltac:(lia)). lia.
Qed.

Lemma replay_capacity_fifo_witness :
  items (memory (add_all (ReplayBuffer_init 3 2 1)
                   [example_record 1; example_record 2; example_record 3]))
    = [example_record 2; example_record 3].
Proof.
  destruct (replay_capacity_fifo 3 2 1 [example_record 1; example_record 2; example_record 3])
    as (_ & Hfull & _).
  apply Hfull. simpl. lia.
Defined.

Lemma bellman_target_witness :
  exists Q_targets,
    learn terminal_batch GAMMA example_world
      = learn_from_targets example_world terminal_batch Q_targets /\
    length Q_targets = length (next_states terminal_batch) /\
    forall i r s' d,
      rewards terminal_batch !! i = Some r -> next_states terminal_batch !! i = Some s' ->
      dones terminal_batch !! i = Some d ->
      exists out m,
        forward (training (qnetwork_target (agent example_world)))
                (parameters (qnetwork_target (agent example_world))) s' = Return out /\
        row_max out = Return m /\
        (NaN ∉ out -> is_max m out) /\
        (NaN ∈ out -> m = NaN) /\
        Q_targets !! i = Some (r + GAMMA * m * (1 - d))%F /\
        (d = 1%F -> is_finite (GAMMA * m)%F -> Q_targets !! i = Some r) /\
        (d = 1%F -> ~ is_finite (GAMMA * m)%F -> Q_targets !! i = Some NaN).
Proof.
  apply (bellman_target terminal_batch GAMMA example_world); [reflexivity | reflexivity |].
  repeat constructor. eexists. split; [vm_compute; reflexivity | discriminate].
Defined.

(** The claim of C1 fails at a terminal transition when the target
    network's output is infinite: the largest entry of its output is
    [+inf], [gamma * inf * (1 - 1)] is NaN, and the target [learn] goes on
    with is NaN, not the reward 5. *)
Lemma terminal_target_nan :
  dones terminal_batch = [1%F] /\
  rewards terminal_batch = [fz 5] /\
  compute_Q_targets_next (qnetwork_target (agent example_world_inf))
    (next_states terminal_batch) = Return [PInf] /\
  compute_Q_targets (rewards terminal_batch) GAMMA [PInf] (dones terminal_batch)
    = Return [NaN] /\
  learn terminal_batch GAMMA example_world_inf
    = learn_from_targets example_world_inf terminal_batch [NaN].
Proof.
  assert (Hn : compute_Q_targets_next (qnetwork_target (agent example_world_inf))
                 (next_states terminal_batch) = Return [PInf])
    by (vm_compute; reflexivity).
  assert (Ht : compute_Q_targets (rewards terminal_batch) GAMMA [PInf] (dones terminal_batch)
               = Return [NaN])
    by (vm_compute; reflexivity).
  repeat (split; [done|]).
  by rewrite learn_targets, Hn, Ht.
Qed.

Lemma sample_insufficient_witness :
  sample (ReplayBuffer_init 3 10 2) example_gen
    = (Raise ValueError, ReplayBuffer_init 3 10 2, example_gen).
Proof. apply (sample_insufficient (ReplayBuffer_init 3 10 2) example_gen). vm_compute. lia. Defined.

Lemma learning_cadence_witness :
  count_calls CallLearn
    (step [fz 1; fz 1] 0 (fz 0) [fz 1; fz 1] false example_world_67).2
    = count_calls CallLearn example_world_67 + 1.
Proof.
  destruct learning_cadence as (_ & Hcall & _).
  rewrite (Hcall example_world_67 [fz 1; fz 1] 0%Z (fz 0) [fz 1; fz 1] false).
  - rewrite decide_True; [reflexivity|]. split; [reflexivity|]. vm_compute. lia.
  - split; [reflexivity|]. apply Forall_replicate. apply example_record_well_formed.
  - split; [reflexivity|]. split; [reflexivity|]. unfold fits_int64. cbn [action]. lia.
Defined.

(** The claim of C3 fails on a store that holds states of different
    lengths: call 68 of [step], with a well-formed transition, meets the
    condition and samples, [sample] raises ValueError, and the learning
    update is not invoked. *)
Lemma learning_skipped_on_ragged_store :
  let w := run_steps ragged_run example_world in
  let e := example_record 1 in
  triggers w (state e) (action e) (reward e) (next_state e) (done e) /\
  (step_record e w).1 = Raise ValueError /\
  count_calls CallSample (step_record e w).2 = count_calls CallSample w + 1 /\
  count_calls CallLearn (step_record e w).2 = count_calls CallLearn w.
Proof.
  cbn zeta. split; [|split; [|split]].
  - apply run_steps_triggers. split; [reflexivity|]. vm_compute. lia.
  - vm_compute. reflexivity.
  - vm_compute. reflexivity.
  - vm_compute. reflexivity.
Qed.

Lemma soft_update_rule_witness :
  exists th,
    soft_update_params [[fz 0; fz 10]] [[fz 10; fz 0]] TAU = (Return tt, th) /\
    length th = 1 /\
    forall i j t l pt pl,
      [[fz 0; fz 10]] !! i = Some t -> [[fz 10; fz 0]] !! i = Some l ->
      t !! j = Some pt -> l !! j = Some pl ->
      exists row, th !! i = Some row /\ row !! j = Some (TAU * pl + (1 - TAU) * pt)%F.
Proof.
  destruct soft_update_rule as (Hrule & _).
  apply (Hrule [[fz 0; fz 10]] [[fz 10; fz 0]] TAU).
  repeat constructor.
Defined.

Lemma sample_batch_witness :
  exists b g' idx,
    sample example_buffer example_gen = (Return b, example_buffer, g') /\
    NoDup idx /\ length idx = 2 /\
    length (states b) = 2 /\ length (actions b) = 2 /\
    length (rewards b) = 2 /\ length (next_states b) = 2 /\
    length (dones b) = 2 /\
    forall k i, idx !! k = Some i ->
      exists e, items (memory example_buffer) !! i = Some e /\
        states b !! k = Some (state e) /\ actions b !! k = Some (action e) /\
        rewards b !! k = Some (reward e) /\ next_states b !! k = Some (next_state e) /\
        dones b !! k = Some (if done e then 1%F else 0%F).
Proof.
  apply (proj1 (sample_batch example_buffer example_gen 2)).
  - vm_compute. lia.
  - vm_compute. lia.
  - repeat constructor; apply example_record_well_formed.
Defined.

(** The claim of C5 fails for a batch size of 0: the store holds at least 0
    records, and [np.vstack] of no rows raises. *)
Lemma sample_batch_size_zero :
  let rb := add_record (ReplayBuffer_init 3 10 0) (example_record 1) in
  batch_size rb <= len rb /\
  sample rb example_gen = (Raise ValueError, rb, example_gen).
Proof. split; [vm_compute; lia | reflexivity]. Qed.

(** The claim of C8 fails when the forward evaluation raises: the state has
    one component where the network expects two, [act] raises, and the
    online network, in training mode before the call, is left in inference
    mode. *)
Lemma act_error_leaves_inference_mode :
  training (qnetwork_local (agent example_world)) = true /\
  (act [fz 1] (qz 0) example_world).1 = Raise RuntimeError /\
  training (qnetwork_local (agent (act [fz 1] (qz 0) example_world).2)) = false.
Proof. repeat split; vm_compute; reflexivity. Qed.

(** The claim of C9 fails: with a state of three components for a state size
    of two and the action 7 of three, [step] returns normally. *)
Lemma step_accepts_malformed :
  length malformed_state <> state_size (agent example_world) /\
  ~ (0 <= 7 < Z.of_nat (action_size (agent example_world)))%Z /\
  (step malformed_state 7 (fz 0) malformed_state false example_world).1 = Return tt.
Proof.
  split; [|split].
  - vm_compute. lia.
  - vm_compute. intros [_ Hlt]. discriminate.
  - vm_compute. reflexivity.
Qed.

Lemma step_stores_unvalidated_witness :
  last (items (memory (agent_memory
          (agent (step malformed_state 7 (fz 0) malformed_state false example_world).2))))
    = Some (mkExperience malformed_state 7 (fz 0) malformed_state false) /\
  (step malformed_state 7 (fz 0) malformed_state false example_world).1 = Return tt.
Proof.
  destruct (step_stores_unvalidated malformed_state 7 (fz 0) malformed_state false
              example_world) as (_ & Hlast & Hret).
  split.
  - apply Hlast. cbn. unfold BUFFER_SIZE. lia.
  - apply Hret. intros [Hc _]. vm_compute in Hc. discriminate.
Defined.

Lemma act_in_range_witness :
  exists n w', act [fz 1; fz 1] (qz 0) example_world = (Return n, w') /\
               n < action_size (agent example_world).
Proof.
  apply (act_in_range [fz 1; fz 1] (qz 0) example_world).
  - vm_compute. lia.
  - eexists. split; [vm_compute; reflexivity | reflexivity].
Defined.

(** C7 at its failing input. The generator's next [random()] is 0.0, so
    with epsilon 0.0 the test [random.random() > eps] fails and [act] takes
    the random branch: it returns action 0, while the online estimator's
    output is largest at action 2. *)
Lemma act_eps0_zero_draw :
  (random_random (gen example_world)).1 = 0%Qc /\
  (exists v, forward false (parameters (qnetwork_local (agent example_world))) [fz 1; fz 1]
               = Return v /\ argmax v = Return 2) /\
  (act [fz 1; fz 1] 0%Qc example_world).1 = Return 0.
Proof.
  split; [|split].
  - apply Qc_is_canon. reflexivity.
  - eexists. split; vm_compute; reflexivity.
  - vm_compute. reflexivity.
Qed.

(** * Further properties of the code *)

(** ** The two branches of [Agent.act] *)

Section PolicyBranches.
Context `{Random} `{Estimator} `{Optimizer}.

Lemma act_greedy_branch (s : list fval) (eps : Qc) (w : World) (v : list fval) :
  forward false (parameters (qnetwork_local (agent w))) s = Return v ->
  (eps < (random_random (gen w)).1)%Qc ->
  (act s eps w).1 = argmax v.
Proof.
  intros Hv Hlt. rewrite act_unfold. cbn zeta. rewrite Hv.
  by rewrite decide_True.
Qed.

(** X1. With a draw above epsilon, [act] returns [np.argmax] of the online
    estimator's output (in particular with epsilon 0 and any draw but 0). *)
Theorem act_greedy_on_positive_draw (s : list fval) (eps : Qc) (w : World) (v : list fval) :
  forward false (parameters (qnetwork_local (agent w))) s = Return v ->
  (eps < (random_random (gen w)).1)%Qc ->
  (act s eps w).1 = argmax v.
Proof. apply act_greedy_branch. Qed.

(** X2. With epsilon at least 1, [act] never takes the greedy branch: it
    returns the index that [_randbelow(action_size)] draws after the draw of
    [random()]. *)
Theorem act_eps1_random (s : list fval) (eps : Qc) (w : World) (v : list fval) :
  (1 <= eps)%Qc ->
  0 < action_size (agent w) ->
  forward false (parameters (qnetwork_local (agent w))) s = Return v ->
  (act s eps w).1
    = Return (randbelow (action_size (agent w)) (random_random (gen w)).2).1.
Proof.
  intros Heps Hpos Hv. rewrite act_unfold. cbn zeta. rewrite Hv.
  destruct (random_random_range (gen w)) as [_ Hu].
  rewrite decide_False.
  - by destruct (random_choice_arange (action_size (agent w)) (random_random (gen w)).2 Hpos)
      as (-> & _).
  - apply Qcle_not_lt. eapply Qcle_trans; [apply Qclt_le_weak, Hu | done].
Qed.

(** On entries without NaN the scan of [np.argmax] keeps the first largest
    entry. *)
Lemma argmax_from_first_max (pre xs : list fval) (bi : nat) (b : fval) :
  NaN ∉ pre ++ xs ->
  pre !! bi = Some b ->
  (forall x, x ∈ pre -> fle x b) ->
  (forall j y, j < bi -> pre !! j = Some y -> flt y b) ->
  exists m,
    (pre ++ xs) !! argmax_from xs (length pre) bi b = Some m /\
    (forall x, x ∈ pre ++ xs -> fle x m) /\
    (forall j y, j < argmax_from xs (length pre) bi b -> (pre ++ xs) !! j = Some y ->
                 flt y m).
Proof.
  revert pre bi b. induction xs as [|x xs IH]; intros pre bi b Hnan Hbi Hle Hlt; simpl.
  - rewrite app_nil_r. eauto.
  - assert (Hb : b <> NaN).
    { intros ->. apply Hnan, elem_of_app. left. by eapply list_elem_of_lookup_2. }
    assert (Hx : x <> NaN).
    { intros ->. apply Hnan, elem_of_app. right. constructor. }
    rewrite decide_False by done.
    replace (pre ++ x :: xs) with ((pre ++ [x]) ++ xs) in * by (by rewrite <- app_assoc).
    replace (S (length pre)) with (length (pre ++ [x])) by (rewrite length_app; simpl; lia).
    case_decide as Hxb.
    + apply IH; [done| | |].
      * rewrite lookup_app_l; [done|]. by eapply lookup_lt_Some.
      * intros y Hy. apply elem_of_app in Hy as [Hy|Hy]; [by apply Hle|].
        apply list_elem_of_singleton in Hy. by subst.
      * intros j y Hj Hy. apply (Hlt j y Hj).
        rewrite lookup_app_l in Hy; [done|].
        apply lookup_lt_Some in Hbi. lia.
    + assert (Hbx : flt b x) by (by apply not_fle_flt).
      apply IH; [done| | |].
      * by rewrite lookup_app_r, Nat.sub_diag.
      * intros y Hy. apply elem_of_app in Hy as [Hy|Hy].
        -- apply flt_fle. eapply fle_flt_trans; [by apply Hle | done].
        -- apply list_elem_of_singleton in Hy. subst. by apply fle_refl.
      * intros j y Hj Hy. rewrite lookup_app_l in Hy by done.
        eapply fle_flt_trans; [|exact Hbx].
        apply Hle. by eapply list_elem_of_lookup_2.
Qed.

(** On entries with a NaN the scan stops at the first NaN. *)
Lemma argmax_from_first_NaN (pre xs : list fval) (bi : nat) (b : fval) :
  NaN ∈ pre ++ xs ->
  pre !! bi = Some b ->
  (b = NaN -> forall j y, j < bi -> pre !! j = Some y -> y <> NaN) ->
  (b <> NaN -> NaN ∉ pre) ->
  (pre ++ xs) !! argmax_from xs (length pre) bi b = Some NaN /\
  (forall j y, j < argmax_from xs (length pre) bi b -> (pre ++ xs) !! j = Some y ->
               y <> NaN).
Proof.
  revert pre bi b. induction xs as [|x xs IH]; intros pre bi b Hnan Hbi Hfirst Hnone; simpl.
  - rewrite app_nil_r in *.
    destruct (decide (b = NaN)) as [->|Hb]; [split; [done | by apply Hfirst]|].
    by destruct (Hnone Hb).
  - pose proof (lookup_lt_Some _ _ _ Hbi) as Hlt.
    case_decide as Hb.
    + subst b. split.
      * by rewrite lookup_app_l.
      * intros j y Hj Hy. rewrite lookup_app_l in Hy by lia. by eapply Hfirst.
    + replace (pre ++ x :: xs) with ((pre ++ [x]) ++ xs) in * by (by rewrite <- app_assoc).
      replace (S (length pre)) with (length (pre ++ [x])) by (rewrite length_app; simpl; lia).
      case_decide as Hxb.
      * apply IH; [done| | |].
        -- by rewrite lookup_app_l.
        -- done.
        -- intros _ Hin. apply elem_of_app in Hin as [Hin|Hin]; [by apply Hnone|].
           apply list_elem_of_singleton in Hin. subst.
           by destruct (fle_not_NaN _ _ Hxb).
      * apply IH; [done| | |].
        -- by rewrite lookup_app_r, Nat.sub_diag.
        -- intros _ j y Hj Hy. rewrite lookup_app_l in Hy by done.
           intros ->. apply (Hnone Hb). by eapply list_elem_of_lookup_2.
        -- intros Hx Hin. apply elem_of_app in Hin as [Hin|Hin]; [by apply Hnone|].
           apply list_elem_of_singleton in Hin. by subst.
Qed.

(** X3. The greedy branch of [act] returns the first index at which the online
    estimator's output is largest: no entry exceeds it and every earlier
    entry is strictly smaller. When the output holds a NaN, it returns the
    index of the first NaN. *)
Theorem act_greedy_first_maximum (s : list fval) (eps : Qc) (w : World) (v : list fval)
    (n : nat) :
  forward false (parameters (qnetwork_local (agent w))) s = Return v ->
  (eps < (random_random (gen w)).1)%Qc ->
  (act s eps w).1 = Return n ->
  (NaN ∉ v ->
   exists m, v !! n = Some m /\
     (forall x, x ∈ v -> fle x m) /\
     (forall j y, j < n -> v !! j = Some y -> flt y m)) /\
  (NaN ∈ v ->
   v !! n = Some NaN /\ forall j y, j < n -> v !! j = Some y -> y <> NaN).
Proof.
  intros Hv Hlt Hn.
  rewrite (act_greedy_branch s eps w v Hv Hlt) in Hn.
  destruct v as [|x xs]; [done|]. simpl in Hn. simplify_eq. split.
  - intros Hnan. apply (argmax_from_first_max [x] xs 0 x).
    + done.
    + done.
    + intros y Hy. apply list_elem_of_singleton in Hy. subst. apply fle_refl.
      intros ->. apply Hnan. constructor.
    + intros j y Hj. lia.
  - intros Hnan. apply (argmax_from_first_NaN [x] xs 0 x).
    + done.
    + done.
    + intros _ j y Hj. lia.
    + intros Hx Hin. by apply list_elem_of_singleton in Hin.
Qed.

(** X4. [act] touches neither the replay memory, the step counter, the sizes nor
    the history. *)
Theorem act_leaves_learning_state (s : list fval) (eps : Qc) (w : World) :
  let w' := (act s eps w).2 in
  agent_memory (agent w') = agent_memory (agent w) /\
  t_step (agent w') = t_step (agent w) /\
  state_size (agent w') = state_size (agent w) /\
  action_size (agent w') = action_size (agent w) /\
  history w' = history w.
Proof.
  cbn zeta. rewrite act_unfold. cbn zeta.
  destruct (forward false _ s); [case_decide|]; done.
Qed.

End PolicyBranches.

(** ** [Agent.step] over time *)

Section StepOverTime.
Context `{Random} `{Estimator} `{Optimizer}.

(** X5. Whatever the learning update does, also when it raises, [step] has
    stored the record, advanced the counter modulo [UPDATE_EVERY] and kept
    the agent's sizes. *)
Theorem step_always_ingests (s : list fval) (a : Z) (r : fval) (s' : list fval) (d : bool)
    (w : World) :
  let w' := (step s a r s' d w).2 in
  agent_memory (agent w') = add (agent_memory (agent w)) s a r s' d /\
  t_step (agent w') = (t_step (agent w) + 1) mod UPDATE_EVERY /\
  t_step (agent w') < UPDATE_EVERY /\
  state_size (agent w') = state_size (agent w) /\
  action_size (agent w') = action_size (agent w).
Proof.
  destruct (step_frame s a r s' d w) as (Hs & Ha & Hm & Ht). cbn zeta in *.
  rewrite Hm, Ht, Hs, Ha. repeat split.
  apply Nat.mod_upper_bound. unfold UPDATE_EVERY. lia.
Qed.

(** X6. On an agent whose buffer samples [BATCH_SIZE] records and holds
    well-formed records, the guard of [step] is enough for [sample]: when
    [step], called with a well-formed transition, raises, the exception
    comes from the learning update, which was invoked. *)
Theorem step_raises_only_in_learn (s : list fval) (a : Z) (r : fval) (s' : list fval)
    (d : bool) (w : World) :
  agent_ok (agent w) ->
  well_formed (state_size (agent w)) (mkExperience s a r s' d) ->
  raises (step s a r s' d w).1 ->
  triggers w s a r s' d /\
  count_calls CallLearn (step s a r s' d w).2 = count_calls CallLearn w + 1.
Proof.
  intros Hok He Hraise.
  pose proof (step_learn_count s a r s' d w Hok He) as Hc.
  rewrite step_unfold in Hraise.
  destruct (decide (triggers w s a r s' d)) as [Htr|Htr]; [|done].
  split; [done|]. rewrite Hc. lia.
Qed.

(** X7. After [n] well-formed transitions from construction the counter is [n
    mod UPDATE_EVERY], the buffer holds the most recent [min n BUFFER_SIZE]
    of them in order, and the learning update was invoked exactly [n /
    UPDATE_EVERY - BATCH_SIZE / UPDATE_EVERY] times: once at every multiple
    of [UPDATE_EVERY] above [BATCH_SIZE]. *)
Theorem run_steps_counts (ss acts : nat) (seed : Z) (es : list Experience) :
  Forall (well_formed ss) es ->
  let w := run_steps es (Agent_init ss acts seed) in
  t_step (agent w) = length es mod UPDATE_EVERY /\
  items (memory (agent_memory (agent w))) = most_recent BUFFER_SIZE es /\
  count_calls CallLearn w = length es / UPDATE_EVERY - BATCH_SIZE / UPDATE_EVERY.
Proof.
  intros Hall.
  destruct (run_steps_invariant ss acts seed es Hall) as (_ & Hc).
  destruct (run_steps_state ss acts seed es) as (_ & Ht & Hm).
  cbn zeta in *. rewrite Hm.
  destruct (add_all_memory acts BUFFER_SIZE BATCH_SIZE es) as [_ Hi].
  done.
Qed.

(** X8. [learn] leaves the replay memory, the counter, the sizes and the
    generator as they were, and is recorded once. *)
Theorem learn_leaves_memory_and_counter (b : Batch) (gamma : fval) (w : World) :
  let w' := (learn b gamma w).2 in
  agent_memory (agent w') = agent_memory (agent w) /\
  t_step (agent w') = t_step (agent w) /\
  state_size (agent w') = state_size (agent w) /\
  action_size (agent w') = action_size (agent w) /\
  gen w' = gen w /\
  count_calls CallLearn w' = count_calls CallLearn w + 1.
Proof.
  destruct (learn_frame b gamma w) as (Hs & Ha & Hm & Ht & Hg & Hc & _).
  cbn zeta in *. done.
Qed.

End StepOverTime.

(** ** The replay buffer from any state *)

(** X9. [add] leaves the capacity and the batch size alone; on a buffer within
    its capacity the size grows by one until the capacity is reached and
    stays there. *)
Theorem add_len (rb : ReplayBuffer) (s : list fval) (a : Z) (r : fval) (s' : list fval)
    (d : bool) :
  len rb <= maxlen (memory rb) ->
  len (add rb s a r s' d) = min (maxlen (memory rb)) (len rb + 1) /\
  maxlen (memory (add rb s a r s' d)) = maxlen (memory rb) /\
  batch_size (add rb s a r s' d) = batch_size rb.
Proof.
  intros Hle. unfold len, add, deque_append in *. cbn [memory items maxlen batch_size].
  split; [|done].
  rewrite length_app. cbn [length].
  case_decide.
  - destruct (items (memory rb)) as [|x l]; simpl in *; [lia|].
    rewrite length_app. simpl. lia.
  - rewrite length_app. simpl. lia.
Qed.

(** ** Soft updates: shapes, and the boundaries of [tau] *)

(** X11. Whatever the shapes, also when a mismatch raises midway: [soft_update]
    keeps the number of target tensors and the length of each, and leaves
    alone every target tensor beyond the online sequence ([zip] stops at the
    shorter sequence). *)
Theorem soft_update_keeps_shape (target local : list (list fval)) (tau : fval) :
  Forall2 (fun t t' => length t = length t') target (soft_update_params target local tau).2 /\
  forall i, length local <= i ->
    (soft_update_params target local tau).2 !! i = target !! i.
Proof.
  revert local. induction target as [|t ts IH]; intros local.
  - split; [constructor | done].
  - destruct local as [|l ls]; simpl.
    + split; [|done]. by apply Forall_Forall2_diag, Forall_forall.
    + destruct (soft_update_tensor t l tau) as [v|e] eqn:Hv.
      * destruct (IH ls) as [Hsh Hrest].
        destruct (soft_update_params ts ls tau) as [o ts'] eqn:Hts. cbn [snd] in *.
        split.
        -- constructor; [|done].
           unfold soft_update_tensor in Hv.
           destruct (tensor_add _ _) as [v'|e]; [|done].
           case_decide; by simplify_eq.
        -- intros [|i] Hi; simpl in *; [lia|]. apply Hrest. lia.
      * cbn [snd]. split; [|done]. by apply Forall_Forall2_diag, Forall_forall.
Qed.

Lemma fmul_1_l (x : fval) : (1 * x)%F = x.
Proof. destruct x; simpl; try done; f_equal; ring. Qed.

Lemma fmul_0_l_finite (x : fval) : is_finite x -> (0 * x)%F = 0%F.
Proof. destruct x; simpl; try done; intros _; f_equal; ring. Qed.

Lemma fadd_0_l (x : fval) : (0 + x)%F = x.
Proof. destruct x; simpl; try done; f_equal; ring. Qed.

Lemma fsub_1_0 : (1 - 0)%F = 1%F.
Proof. unfold fsub. simpl. f_equal; ring. Qed.

Lemma lerp_one (t l : list fval) :
  length t = length l -> Forall is_finite t ->
  zip_with fadd (tensor_scale 1%F l) (tensor_scale (1 - 1)%F t) = l.
Proof.
  rewrite fsub_1_1. unfold tensor_scale.
  revert t. induction l as [|x l IH]; intros [|y t] Hlen Hfin; try done.
  apply Forall_cons in Hfin as [Hy Hfin]. cbn [map zip_with].
  rewrite IH by (simpl in Hlen; done || lia). f_equal.
  by rewrite fmul_1_l, fmul_0_l_finite, fadd_0_r.
Qed.

Lemma lerp_zero (t l : list fval) :
  length t = length l -> Forall is_finite l ->
  zip_with fadd (tensor_scale 0%F l) (tensor_scale (1 - 0)%F t) = t.
Proof.
  rewrite fsub_1_0. unfold tensor_scale.
  revert t. induction l as [|x l IH]; intros [|y t] Hlen Hfin; try done.
  apply Forall_cons in Hfin as [Hx Hfin]. cbn [map zip_with].
  rewrite IH by (simpl in Hlen; done || lia). f_equal.
  by rewrite fmul_1_l, fmul_0_l_finite, fadd_0_l.
Qed.

(** X12. At the boundaries, for parameter sequences of matching shapes:
    with [tau = 1] and finite target parameters a soft update copies the
    online parameters into the target; with [tau = 0] and finite online
    parameters it leaves the target as it is. *)
Theorem soft_update_boundaries (target local : list (list fval)) :
  Forall2 (fun t l => length t = length l) target local ->
  (Forall (Forall is_finite) target ->
   soft_update_params target local 1%F = (Return tt, local)) /\
  (Forall (Forall is_finite) local ->
   soft_update_params target local 0%F = (Return tt, target)).
Proof.
  intros Hshape. rewrite !(soft_update_params_same_shape _ _ _ Hshape).
  split; intros Hfin; f_equal.
  - induction Hshape as [|t l ts ls Hlen _ IH]; [done|].
    apply Forall_cons in Hfin as [Hf Hfin]. cbn [zip_with].
    by rewrite IH, lerp_one.
  - induction Hshape as [|t l ts ls Hlen _ IH]; [done|].
    apply Forall_cons in Hfin as [Hf Hfin]. cbn [zip_with].
    by rewrite IH, lerp_zero.
Qed.

(** ** Errors that surface in the learning update *)

Section LearnErrors.
Context `{Random} `{Estimator} `{Optimizer}.

Lemma gather_out_of_range (rows : list (list fval)) (idx : list Z) (i : nat) (a : Z) (n : nat) :
  Forall (fun row => length row = n) rows ->
  idx !! i = Some a -> ~ (0 <= a < Z.of_nat n)%Z ->
  raises (gather rows idx).
Proof.
  revert idx i. induction rows as [|row rows IH]; intros [|a' idx] i Hall Hi Ha;
    simpl; try done.
  apply Forall_cons in Hall as [Hrow Hall].
  case_decide as Hnonneg; [|done].
  destruct (row !! Z.to_nat a') as [v|] eqn:Hv; [|done].
  apply lookup_lt_Some in Hv.
  destruct i as [|i]; simpl in Hi.
  - simplify_eq. lia.
  - specialize (IH idx i Hall Hi Ha). by destruct (gather rows idx).
Qed.

(** X13. An action outside [0, action_size) that reached a batch makes [learn]
    raise in [gather], before the optimizer or any parameter is touched: the
    agent is exactly as before the call. *)
Theorem learn_rejects_bad_action (b : Batch) (gamma : fval) (w : World) (i : nat) (a : Z) :
  actions b !! i = Some a ->
  ~ (0 <= a < Z.of_nat (action_size (agent w)))%Z ->
  (forall s v,
     forward (training (qnetwork_local (agent w))) (parameters (qnetwork_local (agent w))) s
       = Return v -> length v = action_size (agent w)) ->
  raises (learn b gamma w).1 /\ agent (learn b gamma w).2 = agent w.
Proof.
  intros Hi Ha Hout. rewrite learn_unfold.
  assert (Hraise : raises (learn_forward w b gamma)).
  { unfold learn_forward.
    destruct (compute_Q_targets_next _ _) as [qn|e]; [|done].
    destruct (compute_Q_targets _ _ _ _) as [qt|e]; [|done].
    unfold loss_of, network_call. cbn [training parameters].
    destruct (mapM _ (states b)) as [outs|e] eqn:Houts; [|done].
    apply mapM_Return in Houts.
    assert (Hrows : Forall (fun row => length row = action_size (agent w)) outs).
    { apply Forall_forall. intros row Hin.
      apply list_elem_of_lookup in Hin as [k Hk].
      destruct (Forall2_lookup_r _ _ _ _ _ Houts Hk) as (s & _ & Hs). eauto. }
    pose proof (gather_out_of_range outs (actions b) i a _ Hrows Hi Ha) as Hg.
    by destruct (gather outs (actions b)). }
  destruct (learn_forward w b gamma) as [qt|e]; [done|]. done.
Qed.

End LearnErrors.

(** ** A malformed record surfaces when it is sampled *)

Section DeferredShapeError.
Context `{Random}.

Lemma vstack_ragged (rows : list (list fval)) (r1 r2 : list fval) :
  r1 ∈ rows -> r2 ∈ rows -> length r1 <> length r2 -> vstack rows = Raise ValueError.
Proof.
  intros H1 H2 Hne. destruct rows as [|r rs]; [done|]. simpl.
  case_decide as Hall; [|done]. exfalso.
  assert (Hlen : forall x, x ∈ r :: rs -> length x = length r).
  { intros x Hx. apply elem_of_cons in Hx as [->|Hx]; [done|].
    by apply (proj1 (Forall_forall _ _) Hall). }
  rewrite (Hlen r1 H1), (Hlen r2 H2) in Hne. done.
Qed.

(** X14. When the batch takes the whole store and two stored states differ in
    length (records that [add] accepted unchecked), [sample] raises
    ValueError in [np.vstack] and leaves the store as it was. *)
Theorem sample_ragged_raises (rb : ReplayBuffer) (g : rng) (e1 e2 : Experience) :
  batch_size rb = len rb ->
  e1 ∈ items (memory rb) -> e2 ∈ items (memory rb) ->
  length (state e1) <> length (state e2) ->
  exists g', sample rb g = (Raise ValueError, rb, g').
Proof.
  intros Hbs H1 H2 Hne. unfold sample, random_sample, len in *.
  rewrite decide_True by lia.
  pose proof (sample_pool_submseteq (batch_size rb) (items (memory rb)) g) as Hsub.
  pose proof (sample_pool_length (batch_size rb) (items (memory rb)) g ltac:(lia)) as Hlen.
  destruct (sample_pool _ _ g) as [exps g']. cbn [fst] in *.
  assert (Hperm : exps ≡ₚ items (memory rb))
    by (apply submseteq_length_Permutation; [done | lia]).
  exists g'. unfold build_batch.
  rewrite (vstack_ragged (map state exps) (state e1) (state e2)); [done| | |done].
  - apply list_elem_of_fmap_2. by rewrite Hperm.
  - apply list_elem_of_fmap_2. by rewrite Hperm.
Qed.

End DeferredShapeError.

(** ** Sampling the whole store *)

Section WholeStore.
Context `{Random}.

(** X15. When the batch size equals the size of a non-empty store of
    well-formed records, [sample] returns every stored record exactly once:
    the batch is built from a permutation of the store. *)
Theorem sample_whole_store (rb : ReplayBuffer) (g : rng) (n : nat) :
  batch_size rb = len rb -> 0 < len rb ->
  Forall (well_formed n) (items (memory rb)) ->
  exists exps g',
    exps ≡ₚ items (memory rb) /\
    sample rb g =
      (Return (mkBatch (state <$> exps) (action <$> exps) (reward <$> exps)
                       (next_state <$> exps)
                       ((fun e => if done e then 1%F else 0%F) <$> exps)),
       rb, g').
Proof.
  intros Hbs Hpos Hws. unfold len in *.
  pose proof (sample_pool_submseteq (batch_size rb) (items (memory rb)) g) as Hsub.
  pose proof (sample_pool_length (batch_size rb) (items (memory rb)) g ltac:(lia)) as Hlen.
  destruct (sample_pool (batch_size rb) (items (memory rb)) g) as [exps g'] eqn:Hpool.
  cbn [fst] in *.
  assert (Hperm : exps ≡ₚ items (memory rb))
    by (apply submseteq_length_Permutation; [done | lia]).
  exists exps, g'. split; [done|].
  apply (sample_unfold_Return rb g g' exps n).
  - unfold random_sample. rewrite decide_True by lia. by rewrite Hpool.
  - intros ->. simpl in Hlen. lia.
  - by rewrite Hperm.
Qed.

End WholeStore.

(** ** Worked examples of the further properties *)

Lemma act_greedy_on_positive_draw_witness :
  (act [fz 1; fz 1] 0%Qc example_world_pos).1 = argmax [fz 0; fz 2; fz 4].
Proof.
  apply (act_greedy_on_positive_draw [fz 1; fz 1] 0%Qc example_world_pos).
  - vm_compute. reflexivity.
  - reflexivity.
Defined.

Lemma act_eps1_random_witness :
  (act [fz 1; fz 1] 1%Qc example_world).1
    = Return (randbelow (action_size (agent example_world))
                (random_random (gen example_world)).2).1.
Proof.
  apply (act_eps1_random [fz 1; fz 1] 1%Qc example_world [fz 0; fz 2; fz 4]).
  - apply Qcle_refl.
  - vm_compute. lia.
  - vm_compute. reflexivity.
Defined.

Lemma act_greedy_first_maximum_witness :
  (NaN ∉ [fz 0; fz 2; fz 4] ->
   exists m, [fz 0; fz 2; fz 4] !! 2 = Some m /\
     (forall x, x ∈ [fz 0; fz 2; fz 4] -> fle x m) /\
     (forall j y, j < 2 -> [fz 0; fz 2; fz 4] !! j = Some y -> flt y m)) /\
  (NaN ∈ [fz 0; fz 2; fz 4] ->
   [fz 0; fz 2; fz 4] !! 2 = Some NaN /\
   forall j y, j < 2 -> [fz 0; fz 2; fz 4] !! j = Some y -> y <> NaN).
Proof.
  apply (act_greedy_first_maximum [fz 1; fz 1] 0%Qc example_world_pos).
  - vm_compute. reflexivity.
  - reflexivity.
  - vm_compute. reflexivity.
Defined.

Lemma step_raises_only_in_learn_witness :
  triggers example_world_67_broken [fz 1; fz 1] 0 (fz 0) [fz 1; fz 1] false /\
  count_calls CallLearn
    (step [fz 1; fz 1] 0 (fz 0) [fz 1; fz 1] false example_world_67_broken).2
    = count_calls CallLearn example_world_67_broken + 1.
Proof.
  apply (step_raises_only_in_learn [fz 1; fz 1] 0%Z (fz 0) [fz 1; fz 1] false
           example_world_67_broken).
  - split; [reflexivity|]. apply Forall_replicate. apply example_record_well_formed.
  - split; [reflexivity|]. split; [reflexivity|]. unfold fits_int64. cbn [action]. lia.
  - vm_compute. exact I.
Defined.

Lemma run_steps_counts_witness :
  let w := run_steps (replicate 8 (example_record 1)) (Agent_init 2 3 0) in
  t_step (agent w) = length (replicate 8 (example_record 1)) mod UPDATE_EVERY /\
  items (memory (agent_memory (agent w)))
    = most_recent BUFFER_SIZE (replicate 8 (example_record 1)) /\
  count_calls CallLearn w
    = length (replicate 8 (example_record 1)) / UPDATE_EVERY - BATCH_SIZE / UPDATE_EVERY.
Proof.
  apply (run_steps_counts 2 3 0 (replicate 8 (example_record 1))).
  apply Forall_replicate. apply example_record_well_formed.
Defined.

Lemma add_len_witness :
  len (add example_buffer [fz 1; fz 1] 0 (fz 0) [fz 1; fz 1] false)
    = min (maxlen (memory example_buffer)) (len example_buffer + 1) /\
  maxlen (memory (add example_buffer [fz 1; fz 1] 0 (fz 0) [fz 1; fz 1] false))
    = maxlen (memory example_buffer) /\
  batch_size (add example_buffer [fz 1; fz 1] 0 (fz 0) [fz 1; fz 1] false)
    = batch_size example_buffer.
Proof.
  apply (add_len example_buffer [fz 1; fz 1] 0%Z (fz 0) [fz 1; fz 1] false).
  vm_compute. lia.
Defined.

Lemma soft_update_boundaries_witness :
  soft_update_params [[fz 0; fz 10]] [[fz 10; fz 0]] 1%F = (Return tt, [[fz 10; fz 0]]) /\
  soft_update_params [[fz 0; fz 10]] [[fz 10; fz 0]] 0%F = (Return tt, [[fz 0; fz 10]]).
Proof.
  destruct (soft_update_boundaries [[fz 0; fz 10]] [[fz 10; fz 0]]) as [Hone Hzero].
  - repeat constructor.
  - split; [apply Hone | apply Hzero]; repeat constructor.
Defined.

Lemma learn_rejects_bad_action_witness :
  raises (learn bad_action_batch GAMMA example_world).1 /\
  agent (learn bad_action_batch GAMMA example_world).2 = agent example_world.
Proof.
  apply (learn_rejects_bad_action bad_action_batch GAMMA example_world 0 7%Z).
  - reflexivity.
  - vm_compute. intros [_ Hlt]. discriminate.
  - intros s v Hv. apply mapM_Return in Hv. apply Forall2_length in Hv.
    rewrite <- Hv. reflexivity.
Defined.

Lemma sample_ragged_raises_witness :
  exists g',
    sample (add (mkReplayBuffer 3 (mkDeque [example_record 1] 10) 2)
              malformed_state 7 (fz 0) malformed_state false) example_gen
    = (Raise ValueError,
       add (mkReplayBuffer 3 (mkDeque [example_record 1] 10) 2)
         malformed_state 7 (fz 0) malformed_state false, g').
Proof.
  apply (sample_ragged_raises _ example_gen (example_record 1)
           (mkExperience malformed_state 7 (fz 0) malformed_state false)).
  - reflexivity.
  - vm_compute. apply list_elem_of_here.
  - vm_compute. apply list_elem_of_further, list_elem_of_here.
  - vm_compute. lia.
Defined.

Lemma sample_whole_store_witness :
  exists exps g',
    exps ≡ₚ items (memory (mkReplayBuffer 3 (mkDeque [example_record 1; example_record 2] 10) 2)) /\
    sample (mkReplayBuffer 3 (mkDeque [example_record 1; example_record 2] 10) 2) example_gen =
      (Return (mkBatch (state <$> exps) (action <$> exps) (reward <$> exps)
                       (next_state <$> exps)
                       ((fun e => if done e then 1%F else 0%F) <$> exps)),
       mkReplayBuffer 3 (mkDeque [example_record 1; example_record 2] 10) 2, g').
Proof.
  apply (sample_whole_store _ example_gen 2).
  - reflexivity.
  - vm_compute. lia.
  - repeat constructor; apply example_record_well_formed.
Defined.
